(** * Maximum power point tracker ([mutovis_control/mppt.py])

    A shallow embedding of the [mppt] class and the proofs of its
    specification.

    Modelling conventions.
    - Python floats and the [float64] elements of numpy arrays are the
      type [F] of a class [PyFloat], which lists the operations the
      tracker uses.  The instance [binary64] is the arithmetic the code
      runs on: IEEE doubles with their rounding, signed zeros,
      infinities and NaN.  The instance [exact] is the arithmetic
      without rounding, on rationals.  A theorem stated for every
      instance holds for the doubles of the code; the theorems that are
      about doubles only, or about exact arithmetic only, say so.
    - A literal of the source, [0.7] or [301], is [lit] of that
      rational: on doubles the nearest double, which is what Python
      reads.
    - A tracker object is its instance dictionary, a [gmap string pyval],
      looked up before the class attributes of lines 9-16; a name found in
      neither raises [AttributeError].
    - The instrument [self.sm] and [time.time] are an oracle: the values
      they return are read from three tapes, and every instrument call is
      appended to a trace.
    - Code runs in a state-and-exception monad; [while] loops take fuel and
      raise [OutOfFuel] when it is exhausted.
    - [numpy.rad2deg (numpy.arctan x)] is a parameter [atan_deg] of the
      exploration scan; division by zero raises [ZeroDivisionError] as
      Python's float division does.
    - [print] is not modelled. *)

From Stdlib Require Import QArith Qabs Qminmax Lqa Lia ZArith Floats.
From stdpp Require Import gmap strings list.

(** ** Arithmetic *)

(** The operations of Python's [float] that the tracker uses. *)
Class PyFloat (F : Type) := {
  lit : Q -> F;
  fadd : F -> F -> F;
  fsub : F -> F -> F;
  fmul : F -> F -> F;
  fquot : F -> F -> F;
  fneg : F -> F;
  fabs : F -> F;
  fle : F -> F -> bool;
  flt : F -> F -> bool;
  feq : F -> F -> bool;
  isnan : F -> bool
}.

Declare Scope py_scope.
Delimit Scope py_scope with py.
Infix "+" := fadd : py_scope.
Infix "-" := fsub : py_scope.
Infix "*" := fmul : py_scope.
Infix "/" := fquot : py_scope.
Notation "- x" := (fneg x) : py_scope.
Infix "<=?" := fle : py_scope.
Infix "<?" := flt : py_scope.
Infix "=?" := feq : py_scope.

Definition Qltb (x y : Q) : bool := negb (Qle_bool y x).

(** Arithmetic without rounding. *)
#[export] Instance exact : PyFloat Q := {
  lit x := x;
  fadd := Qplus;
  fsub := Qminus;
  fmul := Qmult;
  fquot := Qdiv;
  fneg := Qopp;
  fabs := Qabs;
  fle := Qle_bool;
  flt := Qltb;
  feq := Qeq_bool;
  isnan _ := false
}.

(** An integer as a double; exact below [2^53]. *)
Definition of_Z (z : Z) : float :=
  match z with
  | Z0 => PrimFloat.zero
  | Zpos _ => PrimFloat.of_uint63 (Uint63.of_Z z)
  | Zneg p => PrimFloat.opp (PrimFloat.of_uint63 (Uint63.of_Z (Zpos p)))
  end.

(** IEEE 754 binary64, the [float] of CPython and the [float64] of numpy.
    A literal is the correctly rounded quotient of its numerator and
    denominator. *)
#[export] Instance binary64 : PyFloat float := {
  lit x := PrimFloat.div (of_Z (Qnum x)) (of_Z (Zpos (Qden x)));
  fadd := PrimFloat.add;
  fsub := PrimFloat.sub;
  fmul := PrimFloat.mul;
  fquot := PrimFloat.div;
  fneg := PrimFloat.opp;
  fabs := PrimFloat.abs;
  fle := PrimFloat.leb;
  flt := PrimFloat.ltb;
  feq := PrimFloat.eqb;
  isnan := PrimFloat.is_nan
}.

Inductive exn :=
| AttributeError (name : string)
| TypeError
| ZeroDivisionError
| IndexError
| ValueError
| OutOfFuel.

Inductive result (A : Type) :=
| Ok (a : A)
| Raise (e : exn).
Arguments Ok {A} a.
Arguments Raise {A} e.

(** A caller-supplied per-sample function; the tracker only tests it
    against [None] and hands it to the instrument. *)
Definition callback := nat.

Declare Scope mon_scope.
Delimit Scope mon_scope with mon.
Reserved Notation "x <- c ;; k" (at level 100, c at next level, right associativity).
Reserved Notation "c ;; k" (at level 100, right associativity).

Section Model.

Context {F : Type} {arith : PyFloat F}.

Local Open Scope py_scope.

(** ** Samples and [which_max_power] *)

(** One instrument reading, [[v, i, tx, status]]. *)
Record Sample := mkSample {
  voltage : F;
  current : F;
  timestamp : F;
  status : Z
}.

(** [numpy.argmax] on a one-dimensional [float64] array, as numpy's
    [DOUBLE_argmax] scans it: the running maximum [mp] moves to an element
    [x] when [x <= mp] is false, and the scan stops at the first NaN,
    which it takes for the maximum. *)
Fixpoint argmax_from (mp : F) (idx i : nat) (p : list F) : nat :=
  match p with
  | [] => idx
  | x :: t =>
      if negb (x <=? mp) then
        if isnan x then i else argmax_from x i (S i) t
      else argmax_from mp idx (S i) t
  end.

(** The empty array raises [ValueError]. *)
Definition argmax (p : list F) : result nat :=
  match p with
  | [] => Raise ValueError
  | x :: t => Ok (if isnan x then 0%nat else argmax_from x 0 1 t)
  end.

(** [a[k]] on an array or a list. *)
Definition index {A} (a : list A) (k : nat) : result A :=
  match a !! k with
  | Some x => Ok x
  | None => Raise IndexError
  end.

(** [v*i*-1] on arrays, element by element. *)
Definition power_of (v i : list F) : list F :=
  zip_with (fun a b => a * b * lit (-1)) v i.

Definition which_max_power (vector : list Sample) : result (F * F * F * nat) :=
  let v := map voltage vector in
  let i := map current vector in
  let p := power_of v i in
  match argmax p with
  | Raise e => Raise e
  | Ok maxIndex =>
      match index v maxIndex, index p maxIndex, index i maxIndex with
      | Ok Vmpp, Ok Pmax, Ok Impp => Ok (Pmax, Vmpp, Impp, maxIndex)
      | Raise e, _, _ | _, Raise e, _ | _, _, Raise e => Raise e
      end
  end.

(** ** Objects, the instrument and the monad *)

(** The values an attribute of the tracker holds. *)
Inductive pyval :=
| PNone
| PFloat (x : F).

Definition is_None (v : pyval) : bool :=
  match v with PNone => true | PFloat _ => false end.

(** The class body, lines 9-16. *)
Definition class_attrs : gmap string pyval :=
  list_to_map
    [ ("dwell_time", PFloat (lit 10)); ("Voc", PNone); ("Isc", PNone);
      ("Vmpp", PNone); ("Impp", PNone); ("currentCompliance", PNone);
      ("t0", PNone) ]%string.

(** The calls made on the instrument [self.sm]. *)
Inductive call :=
| SetNPLC (nplc : F)
| SetupDC (sourceVoltage : bool) (compliance setPoint : pyval) (senseRange : string)
| Write (cmd : string)
| MeasureUntil (t_dwell : F) (cb : option callback)
| SetOutput (v : F)
| Measure.

(** The tracker object together with its surroundings: the calls made so
    far and the tapes of the values still to be returned by [sm.measure],
    [sm.measureUntil] and [time.time]. *)
Record state := mkState {
  attrs : gmap string pyval;
  trace : list call;
  measures : nat -> Sample;
  n_measure : nat;
  bursts : nat -> list Sample;
  n_burst : nat;
  clock : nat -> F;
  n_clock : nat
}.

Definition M (A : Type) : Type := state -> result A * state.

Definition ret {A} (a : A) : M A := fun s => (Ok a, s).

Definition raise {A} (e : exn) : M A := fun s => (Raise e, s).

Definition bind {A B} (c : M A) (k : A -> M B) : M B :=
  fun s =>
    match c s with
    | (Ok a, s') => k a s'
    | (Raise e, s') => (Raise e, s')
    end.

Notation "x <- c ;; k" := (bind c (fun x => k)) : mon_scope.
Notation "c ;; k" := (bind c (fun _ => k)) : mon_scope.
Local Open Scope mon_scope.

(** Attribute lookup: the instance dictionary, then the class. *)
Definition lookup_attr (a : gmap string pyval) (name : string) : option pyval :=
  match a !! name with
  | Some v => Some v
  | None => class_attrs !! name
  end.

(** [self.name] *)
Definition getattr (name : string) : M pyval :=
  fun s =>
    match lookup_attr (attrs s) name with
    | Some v => (Ok v, s)
    | None => (Raise (AttributeError name), s)
    end.

Definition with_attrs (a : gmap string pyval) (s : state) : state :=
  mkState a (trace s) (measures s) (n_measure s) (bursts s) (n_burst s)
    (clock s) (n_clock s).

(** [self.name = v] *)
Definition setattr (name : string) (v : pyval) : M unit :=
  fun s => (Ok tt, with_attrs (<[name := v]> (attrs s)) s).

(** A value used as an operand of float arithmetic or of an ordering. *)
Definition as_float (v : pyval) : M F :=
  match v with
  | PFloat x => ret x
  | PNone => raise TypeError
  end.

(** [a / b] on floats *)
Definition fdiv (a b : F) : M F :=
  if b =? lit 0 then raise ZeroDivisionError else ret (a / b).

(** [time.time()] *)
Definition time_time : M F :=
  fun s =>
    (Ok (clock s (n_clock s)),
     mkState (attrs s) (trace s) (measures s) (n_measure s) (bursts s)
       (n_burst s) (clock s) (S (n_clock s))).

Definition emit (c : call) (s : state) : state :=
  mkState (attrs s) (trace s ++ [c]) (measures s) (n_measure s) (bursts s)
    (n_burst s) (clock s) (n_clock s).

Definition sm_setNPLC (nplc : F) : M unit :=
  fun s => (Ok tt, emit (SetNPLC nplc) s).

Definition sm_setupDC (sourceVoltage : bool) (compliance setPoint : pyval)
    (senseRange : string) : M unit :=
  fun s => (Ok tt, emit (SetupDC sourceVoltage compliance setPoint senseRange) s).

Definition sm_write (cmd : string) : M unit :=
  fun s => (Ok tt, emit (Write cmd) s).

Definition sm_setOutput (v : F) : M unit :=
  fun s => (Ok tt, emit (SetOutput v) s).

Definition sm_measure : M Sample :=
  fun s =>
    (Ok (measures s (n_measure s)),
     mkState (attrs s) (trace s ++ [Measure]) (measures s) (S (n_measure s))
       (bursts s) (n_burst s) (clock s) (n_clock s)).

Definition sm_measureUntil (t_dwell : F) (cb : option callback) : M (list Sample) :=
  fun s =>
    (Ok (bursts s (n_burst s)),
     mkState (attrs s) (trace s ++ [MeasureUntil t_dwell cb]) (measures s)
       (n_measure s) (bursts s) (S (n_burst s)) (clock s) (n_clock s)).

(** [q[-1]] *)
Definition index_last {A} (q : list A) : M A :=
  match last q with
  | Some x => ret x
  | None => raise IndexError
  end.

(** Lifting of a pure result. *)
Definition lift {A} (r : result A) : M A :=
  match r with
  | Ok a => ret a
  | Raise e => raise e
  end.

(** ** [reset] *)

(** Lines 21-28: six assignments to local names. *)
Definition reset : M unit :=
  let Voc := PNone in
  let Isc := PNone in
  let Vmpp := PNone in
  let Impp := PNone in
  let current_compliance := PNone in
  let t0 := PNone in
  ret tt.

(** ** The tracking algorithm *)

(** Line 106 *)
Definition dAngleMax : F := lit 7.

(** The names of the inner [while] of [really_dumb_tracker]. *)
Record scan := mkScan {
  v_set : F;
  dV : F;
  highEdgeTouched : bool;
  lowEdgeTouched : bool;
  q : list Sample;
  i_explore : list F;
  v_explore : list F
}.

Definition set_walk (w : scan) (v d : F) (high low : bool) : scan :=
  mkScan v d high low (q w) (i_explore w) (v_explore w).

(** Lines 138-146 *)
Definition angle_edges (dAngle : F) (w : scan) : scan :=
  let w :=
    if dAngleMax <? dAngle
    then set_walk w (v_set w) (dV w * lit (-1)) true (lowEdgeTouched w)
    else w in
  let w :=
    if dAngle <? - dAngleMax
    then set_walk w (v_set w) (dV w * lit (-1)) (highEdgeTouched w) true
    else w in
  w.

(** [highEdgeTouched = True; dV = dV * -1; v_set = v_set + dV] *)
Definition turn_high (w : scan) : scan :=
  let d := dV w * lit (-1) in
  set_walk w (v_set w + d) d true (lowEdgeTouched w).

(** [lowEdgeTouched = True; dV = dV * -1; v_set = v_set + dV] *)
Definition turn_low (w : scan) : scan :=
  let d := dV w * lit (-1) in
  set_walk w (v_set w + d) d (highEdgeTouched w) true.

(** Lines 150-175.  [a > b] is [b < a] and [a >= b] is [b <= a], on NaN
    too. *)
Definition boundary_edges (Voc : F) (w : scan) : scan :=
  if ((lit 0 <? v_set w) && (lit 0 <? dV w)) || ((v_set w <? lit 0) && (dV w <? lit 0))
  then
    let w := if (lit 0 <? dV w) && (Voc <=? v_set w) then turn_high w else w in
    let w := if (dV w <? lit 0) && (v_set w <=? Voc) then turn_low w else w in
    w
  else
    let w := if (lit 0 <? dV w) && (lit 0 <=? v_set w) then turn_high w else w in
    let w := if (dV w <? lit 0) && (v_set w <=? lit 0) then turn_low w else w in
    w.

(** Lines 138-175: what one pass of the inner loop does to the walk once
    [dAngle] is known. *)
Definition walk_on (Voc dAngle : F) (w : scan) : scan :=
  let w := angle_edges dAngle w in
  let w := set_walk w (v_set w + dV w) (dV w) (highEdgeTouched w) (lowEdgeTouched w) in
  boundary_edges Voc w.

(** The names of the outer [while]. *)
Record locals := mkLocals {
  l_dV : F;
  l_q : list Sample;
  l_Impp : pyval;
  l_Vmpp : pyval
}.

Inductive flow :=
| Break
| Continue (run_time : F).

(** Lines 69-73 *)
Definition initial_soak (duration : F) : F :=
  if duration <=? lit 10 then duration * lit 0.2 else lit 10.

(** [time.time() - self.t0] *)
Definition elapsed : M F :=
  now <- time_time ;;
  t0 <- getattr "t0" ;;
  t0 <- as_float t0 ;;
  ret (now - t0).

(** [numpy.rad2deg (numpy.arctan x)] *)
Variable atan_deg : F -> F.

(** [numpy.rad2deg(numpy.arctan(i/v*Voc/Isc))], lines 121, 134 and 188 *)
Definition angle (i v Voc : F) (Isc : pyval) : M F :=
  a <- fdiv i v ;;
  let b := a * Voc in
  isc <- as_float Isc ;;
  c <- fdiv b isc ;;
  ret (atan_deg c).

(** Lines 127-175: one pass of the inner loop. *)
Definition explore_step (angleMpp Voc : F) (Isc : pyval) (w : scan) : M scan :=
  sm_setOutput (v_set w) ;;
  measurement <- sm_measure ;;
  let v := voltage measurement in
  let i := current measurement in
  let w := mkScan (v_set w) (dV w) (highEdgeTouched w) (lowEdgeTouched w)
             (q w ++ [measurement]) (i_explore w ++ [i]) (v_explore w ++ [v]) in
  thisAngle <- angle i v Voc Isc ;;
  let dAngle := angleMpp - thisAngle in
  ret (walk_on Voc dAngle w).

(** Line 126: [while (not(highEdgeTouched and lowEdgeTouched))] *)
Fixpoint explore_loop (fuel : nat) (angleMpp Voc : F) (Isc : pyval) (w : scan)
    : M scan :=
  if highEdgeTouched w && lowEdgeTouched w then ret w
  else
    match fuel with
    | O => raise OutOfFuel
    | S fuel' =>
        w' <- explore_step angleMpp Voc Isc w ;;
        explore_loop fuel' angleMpp Voc Isc w'
    end.

(** Lines 117-190: one exploration.  It returns [dV], [q] and the new
    [Impp] and [Vmpp]. *)
Definition exploration_scan (fuel : nat) (Voc : F) (Isc : pyval) (l : locals)
    : M (F * list Sample * F * F) :=
  Impp <- as_float (l_Impp l) ;;
  Vmpp <- as_float (l_Vmpp l) ;;
  let i_explore0 := [Impp] in
  let v_explore0 := [Vmpp] in
  angleMpp <- angle Impp Vmpp Voc Isc ;;
  w <- explore_loop fuel angleMpp Voc Isc
         (mkScan Vmpp (l_dV l) false false (l_q l) i_explore0 v_explore0) ;;
  let p_explore := power_of (v_explore w) (i_explore w) in
  maxIndex <- lift (argmax p_explore) ;;
  Vmpp <- lift (index (v_explore w) maxIndex) ;;
  Impp <- lift (index (i_explore w) maxIndex) ;;
  a <- angle Impp Vmpp Voc Isc ;;
  let dFromLastMppAngle := angleMpp - a in
  ret (dV w, q w, Impp, Vmpp).

(** Lines 192-214: the dwell at the new maximum power point. *)
Definition dwell_phase (duration : F) (cb : option callback)
    (e : F * list Sample * F * F) : M (flow * locals) :=
  let '(dV, q, Impp, Vmpp) := e in
  run_time <- elapsed ;;
  let time_left := duration - run_time in
  if time_left <=? lit 0 then ret (Break, mkLocals dV q (PFloat Impp) (PFloat Vmpp))
  else
    sm_setOutput Vmpp ;;
    dwell_time <- getattr "dwell_time" ;;
    dwell_time <- as_float dwell_time ;;
    let dwell := if time_left <? dwell_time then time_left else dwell_time in
    dq <- match cb with
          | Some f => sm_measureUntil dwell (Some f)
          | None => sm_measureUntil dwell None
          end ;;
    m <- index_last dq ;;
    let Impp := current m in
    let q := q ++ dq in
    run_time <- elapsed ;;
    ret (Continue run_time, mkLocals dV q (PFloat Impp) (PFloat Vmpp)).

(** Line 116: [while (run_time < duration)].  [inner] is the fuel of each
    exploration. *)
Fixpoint track_loop (fuel inner : nat) (duration : F) (cb : option callback)
    (Voc : F) (Isc : pyval) (run_time : F) (l : locals) : M locals :=
  if run_time <? duration then
    match fuel with
    | O => raise OutOfFuel
    | S fuel' =>
        e <- exploration_scan inner Voc Isc l ;;
        r <- dwell_phase duration cb e ;;
        match r with
        | (Break, l') => ret l'
        | (Continue run_time', l') =>
            track_loop fuel' inner duration cb Voc Isc run_time' l'
        end
    end
  else ret l.

(** Lines 94-218 *)
Definition really_dumb_tracker (duration : F) (cb : option callback) (fuel : nat)
    : M (list Sample) :=
  Voc <- getattr "Voc" ;;
  Voc <- as_float Voc ;;
  let dV := Voc / lit 301 in
  let q := [] in
  Impp <- getattr "Impp" ;;
  Vmpp <- getattr "Vmpp" ;;
  Isc <- getattr "Isc" ;;
  run_time <- elapsed ;;
  l <- track_loop fuel fuel duration cb Voc Isc run_time (mkLocals dV q Impp Vmpp) ;;
  setattr "Impp" (l_Impp l) ;;
  setattr "Vmpp" (l_Vmpp l) ;;
  ret (l_q l).

(** Lines 52-81: the start of the timer, the seeding of [Vmpp] and the
    soak that gives the first [Impp]. *)
Definition initial_acquisition (duration NPLC : F) : M (list Sample) :=
  now <- time_time ;;
  setattr "t0" (PFloat now) ;;
  Vmpp <- getattr "Vmpp" ;;
  (if is_None Vmpp then
     Voc <- getattr "Voc" ;;
     Voc <- as_float Voc ;;
     setattr "Vmpp" (PFloat (lit 0.7 * Voc))
   else ret tt) ;;
  cc <- getattr "current_compliance" ;;
  current_compliance <-
    (if is_None cc then ret (PFloat (lit 0.04)) else getattr "current_compliance") ;;
  (if negb (NPLC =? lit (-1)) then sm_setNPLC NPLC else ret tt) ;;
  Vmpp <- getattr "Vmpp" ;;
  sm_setupDC true current_compliance Vmpp "a" ;;
  sm_write ":arm:source immediate" ;;
  q <- sm_measureUntil (initial_soak duration) None ;;
  m <- index_last q ;;
  setattr "Impp" (PFloat (current m)) ;;
  cc <- getattr "current_compliance" ;;
  (if is_None cc then
     Impp <- getattr "Impp" ;;
     Impp <- as_float Impp ;;
     setattr "current_compliance" (PFloat (fabs (Impp * lit 2)))
   else ret tt) ;;
  Isc <- getattr "Isc" ;;
  (if is_None Isc then
     Impp <- getattr "Impp" ;;
     Impp <- as_float Impp ;;
     setattr "Isc" (PFloat (Impp * lit 1.1))
   else ret tt) ;;
  ret q.

(** Lines 44-92 *)
Definition launch_tracker (duration : F) (cb : option callback) (NPLC : F)
    (fuel : nat) : M (list Sample) :=
  Voc <- getattr "Voc" ;;
  if is_None Voc then ret []
  else
    q <- initial_acquisition duration NPLC ;;
    pptv <- really_dumb_tracker duration cb fuel ;;
    run_time <- elapsed ;;
    ret (q ++ pptv).

(** ** Vocabulary of the specification *)

(** The power [v*i*-1] of one sample. *)
Definition power (e : Sample) : F := voltage e * current e * lit (-1).

(** The walk after a sample has been appended to the three buffers
    (lines 130-133). *)
Definition fed (w : scan) (m : Sample) : scan :=
  mkScan (v_set w) (dV w) (highEdgeTouched w) (lowEdgeTouched w)
    (q w ++ [m]) (i_explore w ++ [current m]) (v_explore w ++ [voltage m]).

(** [emits P Q c]: from every state, [c] only appends calls to the trace,
    each of them satisfies [P], and a value it returns satisfies [Q]. *)
Definition emits {A} (P : call -> Prop) (Q : A -> Prop) (c : M A) : Prop :=
  forall s, exists more,
    trace (snd (c s)) = trace s ++ more /\ Forall P more /\
    match fst (c s) with Ok a => Q a | Raise _ => True end.

(** The buffers of an exploration that started from [(vm, im)] with the
    history [q0]: the samples [visited] since then. *)
Definition buffers (q0 : list Sample) (vm im : F) (visited : list Sample)
    (w : scan) : Prop :=
  q w = q0 ++ visited /\
  v_explore w = vm :: map voltage visited /\
  i_explore w = im :: map current visited.

(** The state after [setOutput(v_set); measure()], lines 127-128. *)
Definition measured (w : scan) (s : state) : state :=
  mkState (attrs s) ((trace s ++ [SetOutput (v_set w)]) ++ [Measure])
    (measures s) (S (n_measure s)) (bursts s) (n_burst s) (clock s) (n_clock s).

(** [dAngle] of line 135 for the sample [m]. *)
Definition dAngle_of (angleMpp Voc isc : F) (m : Sample) : F :=
  angleMpp - atan_deg (current m / voltage m * Voc / isc).

(** The test of line 138 on the sample [m]. *)
Definition beyond_high (angleMpp Voc isc : F) (m : Sample) : bool :=
  dAngleMax <? dAngle_of angleMpp Voc isc m.

(** The test of line 143 on the sample [m]. *)
Definition beyond_low (angleMpp Voc isc : F) (m : Sample) : bool :=
  dAngle_of angleMpp Voc isc m <? - dAngleMax.

(** The next [n] samples of [sm.measure] have a voltage other than zero. *)
Definition readable (s : state) (n : nat) : Prop :=
  forall j, (j < n)%nat -> (voltage (measures s (n_measure s + j)) =? lit 0) = false.

(** The edge is touched, or one of the next [n] samples passes the test
    that touches it. *)
Definition pending (test : Sample -> bool) (flag : bool) (s : state) (n : nat)
    : Prop :=
  flag = true \/
  exists j, (j < n)%nat /\ test (measures s (n_measure s + j)) = true.

(** A voltage between [0] and [Voc]. *)
Definition in_bounds (Voc v : F) : Prop :=
  (lit 0 <=? v) = true /\ (v <=? Voc) = true.

(** The call of line 63, when [NPLC] is given. *)
Definition nplc_calls (NPLC : F) : list call :=
  if negb (NPLC =? lit (-1)) then [SetNPLC NPLC] else [].

(** The compliance of lines 57-60. *)
Definition provisional (cc : pyval) : pyval :=
  if is_None cc then PFloat (lit 0.04) else cc.

(** [self.Vmpp] after lines 54-55. *)
Definition seeded (voc : F) (Vmpp : pyval) : pyval :=
  if is_None Vmpp then PFloat (lit 0.7 * voc) else Vmpp.

(** A call other than a timed burst. *)
Definition not_a_burst (c : call) : Prop :=
  match c with
  | MeasureUntil _ _ => False
  | _ => True
  end.

(** No constraint on the calls, none on the value returned. *)
Definition any_call (c : call) : Prop := True.
Definition anything {A} (a : A) : Prop := True.

(** The running maximum [mp] of [argmax_from] at the end of its scan. *)
Fixpoint best_from (mp : F) (p : list F) : F :=
  match p with
  | [] => mp
  | x :: t =>
      if negb (x <=? mp) then
        if isnan x then x else best_from x t
      else best_from mp t
  end.

(** Whether that scan stopped at a NaN. *)
Fixpoint stopped_from (mp : F) (p : list F) : bool :=
  match p with
  | [] => false
  | x :: t =>
      if negb (x <=? mp) then
        if isnan x then true else stopped_from x t
      else stopped_from mp t
  end.

(** The calls of an exploration that visits [setpoints]. *)
Definition visits (setpoints : list F) : list call :=
  flat_map (fun v => [SetOutput v; Measure]) setpoints.

(** [keeps R c]: the state [c] ends in is related by [R] to the state it
    started from, whatever [c] returns or raises. *)
Definition keeps (R : state -> state -> Prop) {A} (c : M A) : Prop :=
  forall s, R s (snd (c s)).

(** The attributes are the same. *)
Definition same_attrs (s s' : state) : Prop := attrs s' = attrs s.

(** The attributes are the same but for those called [names]. *)
Definition same_attrs_but (names : list string) (s s' : state) : Prop :=
  forall name, name ∉ names ->
    lookup_attr (attrs s') name = lookup_attr (attrs s) name.

Definition is_float (v : pyval) : Prop :=
  match v with
  | PFloat _ => True
  | PNone => False
  end.

(** The attributes [launch_tracker] assigns. *)
Definition written_by_launch : list string :=
  ["t0"; "Vmpp"; "Impp"; "current_compliance"; "Isc"]%string.

(** [self.current_compliance] after lines 77-78, [m] being the last sample
    of the soak. *)
Definition committed_compliance (cc : pyval) (m : Sample) : pyval :=
  if is_None cc then PFloat (fabs (current m * lit 2)) else cc.

(** [self.Isc] after lines 79-81. *)
Definition committed_Isc (Isc : pyval) (m : Sample) : pyval :=
  if is_None Isc then PFloat (current m * lit 1.1) else Isc.

(** The calls of lines 62-75. *)
Definition soak_calls (duration NPLC : F) (cc : pyval) (setPoint : pyval)
    : list call :=
  nplc_calls NPLC ++
  [ SetupDC true (provisional cc) setPoint "a";
    Write ":arm:source immediate";
    MeasureUntil (initial_soak duration) None ].

(** ** Scenarios *)

(** A stand-in for [numpy.rad2deg (numpy.arctan x)], used where a run is
    evaluated: a quadratic correction of the chord on [[-1, 1]] and the
    reflection [arctan x = 90 - arctan (1/x)] outside.  It is exact at [0]
    and [±1]. *)
Definition atan_deg_ref (x : F) : F :=
  let core t := lit 45 * t + lit 15.64 * t * (lit 1 - fabs t) in
  if fabs x <=? lit 1 then core x
  else if lit 0 <? x then lit 90 - core (lit 1 / x)
  else lit (-90) - core (lit 1 / x).

(** A tracker before its first call, with no instrument call made and the
    three tapes at their start. *)
Definition tracker (a : gmap string pyval) (m : nat -> Sample)
    (b : nat -> list Sample) (c : nat -> F) : state :=
  mkState a [] m 0 b 0 c 0.

(** A clock that advances by [dt] seconds between two readings. *)
Definition ticking (dt : Q) (n : nat) : F :=
  lit (dt * inject_Z (Z.of_nat n)).

(** The reading [[v, i, 0, 0]]. *)
Definition reading (v i : Q) : Sample := mkSample (lit v) (lit i) (lit 0) 0.

(** Bursts of one sample at the seeded operating point of a 0.6 V cell. *)
Definition soak_042 (n : nat) : list Sample := [reading 0.42 (-0.036)].

(** An instrument that always reads the same sample. *)
Definition steady (m : Sample) (n : nat) : Sample := m.

(** A new [mppt] object on which the caller has set nothing. *)
Definition unset_tracker : state :=
  tracker ∅ (steady (reading 0.42 (-0.036))) soak_042 (ticking 1).

(** A new [mppt] object on which the caller has set [Voc] only. *)
Definition Voc_only_tracker : state :=
  tracker {[ "Voc"%string := PFloat (lit 0.6) ]}
    (steady (reading 0.42 (-0.036))) soak_042 (ticking 1).

(** The exploration buffer of the specification's scenario. *)
Definition buffer3 : list Sample :=
  [ mkSample (lit 0.40) (lit (-0.035)) (lit 0) 0;
    mkSample (lit 0.42) (lit (-0.036)) (lit 1) 0;
    mkSample (lit 0.44) (lit (-0.030)) (lit 2) 0 ].

(** The locals of [really_dumb_tracker] for a 0.6 V cell whose estimate
    sits at the open-circuit voltage. *)
Definition at_Voc : locals :=
  mkLocals (lit 0.6 / lit 301) [] (PFloat (lit (-0.04))) (PFloat (lit 0.6)).

(** An instrument that reads ten per cent more than the cell at [at_Voc],
    voltage and current alike. *)
Definition reads_high : state :=
  tracker {[ "Voc"%string := PFloat (lit 0.6) ]}
    (steady (reading 0.66 (-0.044))) soak_042 (ticking 1).

(** The inner loop entered from the middle of the 0.6 V cell's range, at
    [Vmpp = 0.3] and [Impp = -0.02], where the angle is 45 degrees. *)
Definition mid_walk : scan :=
  mkScan (lit 0.3) (lit 0.6 / lit 301) false false [] [lit (-0.02)] [lit 0.3].

(** The same point as the locals of [really_dumb_tracker]. *)
Definition mid_cell : locals :=
  mkLocals (lit 0.6 / lit 301) [] (PFloat (lit (-0.02))) (PFloat (lit 0.3)).

(** An instrument on a cell that has stopped delivering current. *)
Definition gone_dark : state :=
  tracker {[ "Voc"%string := PFloat (lit 0.6) ]}
    (steady (reading 0.3 0)) soak_042 (ticking 1).

(** An instrument that reads a dark cell first and a point well above
    the starting angle after. *)
Definition two_sided : state :=
  tracker {[ "Voc"%string := PFloat (lit 0.6) ]}
    (fun n => match n with
              | O => reading 0.3 0
              | S _ => reading 0.3 (-0.04)
              end)
    soak_042 (ticking 1).

(** A walk that swings between [v0] and one step below it, its low edge
    untouched. *)
Definition swinging (d v0 : F) (w : scan) : Prop :=
  lowEdgeTouched w = false /\
  ((dV w = d /\ v_set w = v0) \/
   (dV w = d * lit (-1) /\ v_set w = v0 + d * lit (-1))).

(** The locals of [really_dumb_tracker] for a 0.624 V cell whose estimate
    sits at the open-circuit voltage. *)
Definition at_Voc_624 : locals :=
  mkLocals (lit 0.624 / lit 301) [] (PFloat (lit (-0.04))) (PFloat (lit 0.624)).

(** An instrument that keeps reading that point. *)
Definition reads_back : state :=
  tracker {[ "Voc"%string := PFloat (lit 0.624) ]}
    (steady (reading 0.624 (-0.04))) soak_042 (ticking 1).

(** The exploration buffer behind a reading whose voltage is [x]. *)
Definition spoiled (x : F) : list Sample :=
  mkSample x (lit (-0.036)) (lit 0) 0 :: buffer3.

(** A new [mppt] object on which the caller has set [Voc] and has created
    the attribute [current_compliance], leaving it at [None]. *)
Definition prepared_tracker : state :=
  tracker (<[ "current_compliance"%string := PNone ]>
             {[ "Voc"%string := PFloat (lit 0.6) ]})
    (steady (reading 0.42 (-0.036))) soak_042 (ticking 1).

(** A tracker in the middle of a run started at time [0], read by a clock
    that shows second [0]. *)
Definition running_tracker : state :=
  tracker (<[ "t0"%string := PFloat (lit 0) ]> {[ "Voc"%string := PFloat (lit 0.6) ]})
    (steady (reading 0.42 (-0.036))) soak_042 (ticking 1).

(** A walk one step above [0], going down after the high edge. *)
Definition near_zero : scan :=
  mkScan (lit 0.001) (- (lit 0.6 / lit 301)) true false [] [lit (-0.02)] [lit 0.3].

(** An instrument whose bursts come back empty. *)
Definition silent_tracker : state :=
  tracker (<[ "current_compliance"%string := PNone ]>
             {[ "Voc"%string := PFloat (lit 0.6) ]})
    (steady (reading 0.42 (-0.036))) (fun _ => []) (ticking 1).

(** A tracker whose run started at time [0] and whose clock already shows
    second [40], with the estimates of a previous run. *)
Definition late_tracker : state :=
  mkState
    (<[ "Isc"%string := PFloat (lit (-0.04)) ]>
       (<[ "Impp"%string := PFloat (lit (-0.036)) ]>
          (<[ "Vmpp"%string := PFloat (lit 0.42) ]>
             (<[ "t0"%string := PFloat (lit 0) ]>
                {[ "Voc"%string := PFloat (lit 0.6) ]}))))
    [] (steady (reading 0.42 (-0.036))) 0 soak_042 0 (ticking 1) 40.

(** A prepared tracker on an instrument that answers the seeded point, and
    a clock that advances four seconds per reading. *)
Definition brisk_tracker : state :=
  tracker (<[ "current_compliance"%string := PNone ]>
             {[ "Voc"%string := PFloat (lit 0.6) ]})
    (steady (reading 0.42 (-0.036))) soak_042 (ticking 4).

(** * Proofs *)

(** ** The scan of [numpy.argmax] *)

Lemma argmax_from_value p : forall mp idx i,
  (idx < i)%nat ->
  let k := argmax_from mp idx i p in
  (k = idx /\ best_from mp p = mp) \/
  ((i <= k)%nat /\ p !! (k - i)%nat = Some (best_from mp p)).
Proof.
  induction p as [|y t IH]; intros mp idx i Hlt; simpl; [auto|].
  destruct (negb (y <=? mp)); [destruct (isnan y)|].
  - right. split; [lia|]. rewrite Nat.sub_diag. reflexivity.
  - right. destruct (IH y i (S i) ltac:(lia)) as [[-> ->]|[Hge Hk]].
    + split; [lia|]. rewrite Nat.sub_diag. reflexivity.
    + split; [lia|].
      replace (argmax_from y i (S i) t - i)%nat
        with (S (argmax_from y i (S i) t - S i)) by lia.
      exact Hk.
  - destruct (IH mp idx (S i) ltac:(lia)) as [[Hk Hb]|[Hge Hk]]; [left; auto|].
    right. split; [lia|].
    replace (argmax_from mp idx (S i) t - i)%nat
      with (S (argmax_from mp idx (S i) t - S i)) by lia.
    exact Hk.
Qed.

(** The value at the position [argmax] returns is the running maximum. *)
Lemma argmax_value x t k :
  argmax (x :: t) = Ok k ->
  (x :: t) !! k = Some (if isnan x then x else best_from x t).
Proof.
  intros [= <-]. destruct (isnan x); [reflexivity|].
  destruct (argmax_from_value t x 0%nat 1%nat ltac:(lia)) as [[-> ->]|[Hge Hk]];
    [reflexivity|].
  destruct (argmax_from x 0 1 t) as [|k]; [lia|]. simpl.
  replace (S k - 1)%nat with k in Hk by lia. exact Hk.
Qed.

(** A scan that did not start from a NaN ends on one exactly when it
    stopped early. *)
Lemma best_from_isnan p : forall mp,
  isnan mp = false -> isnan (best_from mp p) = stopped_from mp p.
Proof.
  induction p as [|y t IH]; intros mp Hmp; simpl; [exact Hmp|].
  destruct (negb (y <=? mp)); [|apply IH; exact Hmp].
  destruct (isnan y) eqn:Hy; [exact Hy | apply IH; exact Hy].
Qed.

Lemma argmax_from_app p x : forall mp idx i,
  argmax_from mp idx i (p ++ [x])
  = if stopped_from mp p then argmax_from mp idx i p
    else if negb (x <=? best_from mp p) then (i + length p)%nat
    else argmax_from mp idx i p.
Proof.
  induction p as [|y t IH]; intros mp idx i; simpl.
  - rewrite Nat.add_0_r. destruct (negb (x <=? mp)); [|reflexivity].
    destruct (isnan x); reflexivity.
  - destruct (negb (y <=? mp)); [destruct (isnan y); [reflexivity|]|];
      rewrite IH;
      replace (S i + length t)%nat with (i + S (length t))%nat by lia;
      reflexivity.
Qed.

Lemma power_of_lookup (vector : list Sample) (j : nat) :
  power_of (map voltage vector) (map current vector) !! j
  = power <$> vector !! j.
Proof.
  unfold power_of. revert j.
  induction vector as [|e t IH]; intros [|j]; simpl; auto.
Qed.

Lemma power_of_app (vector : list Sample) (e : Sample) :
  power_of (map voltage (vector ++ [e])) (map current (vector ++ [e]))
  = power_of (map voltage vector) (map current vector) ++ [power e].
Proof.
  unfold power_of, power. induction vector as [|a t IH]; simpl; [reflexivity|].
  rewrite IH. reflexivity.
Qed.

Lemma power_of_length (vector : list Sample) :
  length (power_of (map voltage vector) (map current vector)) = length vector.
Proof.
  unfold power_of. induction vector as [|a t IH]; simpl; [reflexivity|].
  rewrite IH. reflexivity.
Qed.

Lemma power_of_powers (vector : list Sample) :
  power_of (map voltage vector) (map current vector) = map power vector.
Proof.
  unfold power_of, power. induction vector as [|a t IH]; simpl; [reflexivity|].
  rewrite IH. reflexivity.
Qed.

Lemma lookup_map {A B} (f : A -> B) (l : list A) (j : nat) :
  map f l !! j = f <$> l !! j.
Proof. revert j. induction l as [|a t IH]; intros [|j]; simpl; auto. Qed.

Lemma which_max_power_index (vector : list Sample) k s :
  argmax (map power vector) = Ok k -> vector !! k = Some s ->
  which_max_power vector = Ok (power s, voltage s, current s, k).
Proof.
  intros Hk Hs. unfold which_max_power, index.
  rewrite power_of_powers, Hk, !lookup_map, Hs. reflexivity.
Qed.

(** What [which_max_power] returns on a non-empty sequence: the sample at
    the position [argmax] gives for the powers. *)
Lemma which_max_power_at (x : Sample) (t : list Sample) :
  exists k s,
    argmax (map power (x :: t)) = Ok k /\
    (x :: t) !! k = Some s /\
    which_max_power (x :: t) = Ok (power s, voltage s, current s, k).
Proof.
  destruct (argmax (map power (x :: t))) as [k|e] eqn:Hk; [|discriminate].
  assert (Hv : map power (x :: t) !! k
               = Some (if isnan (power x) then power x
                       else best_from (power x) (map power t)))
    by (apply argmax_value; exact Hk).
  rewrite lookup_map in Hv.
  destruct ((x :: t) !! k) as [s|] eqn:Hs; [|discriminate].
  exists k, s. split; [reflexivity | split; [exact Hs|]].
  apply which_max_power_index; assumption.
Qed.

(** *** The first maximum

    What the scan finds depends on the ordering only through the laws
    below, which hold for IEEE comparisons and for exact ones. *)

Section FirstMaximum.

Hypothesis fle_total : forall x y,
  isnan x = false -> isnan y = false -> (x <=? y) = true \/ (y <=? x) = true.
Hypothesis fle_trans : forall x y z,
  (x <=? y) = true -> (y <=? z) = true -> (x <=? z) = true.
Hypothesis fle_nan : forall x y, isnan x = true -> (x <=? y) = false.

Lemma argmax_from_max p : forall mp idx i,
  (idx < i)%nat -> isnan mp = false ->
  Forall (fun x => isnan x = false) p ->
  let k := argmax_from mp idx i p in
  let m := best_from mp p in
  (mp <=? m) = true /\
  (k = idx \/ (m <=? mp) = false) /\
  (forall j x, p !! j = Some x -> (x <=? m) = true) /\
  (forall j x, p !! j = Some x -> (i + j < k)%nat -> (m <=? x) = false).
Proof.
  induction p as [|y t IH]; intros mp idx i Hlt Hmp Hall; simpl.
  - split; [destruct (fle_total mp mp Hmp Hmp); assumption|].
    split; [left; reflexivity|].
    split; intros j x Hj; rewrite lookup_nil in Hj; discriminate.
  - inversion Hall as [|? ? Hy Ht]; subst. rewrite Hy.
    destruct (y <=? mp) eqn:E; simpl.
    + destruct (IH mp idx (S i) ltac:(lia) Hmp Ht) as (Hle & Hst & Hub & Hfirst).
      split; [exact Hle|]. split; [exact Hst|]. split.
      * intros [|j] x Hj; simpl in Hj.
        -- injection Hj as <-. eapply fle_trans; eassumption.
        -- eapply Hub; eassumption.
      * intros [|j] x Hj Hk; simpl in Hj.
        -- injection Hj as <-.
           destruct Hst as [Heq|Hst]; [rewrite Heq in Hk; lia|].
           destruct (best_from mp t <=? y) eqn:C; [|reflexivity].
           rewrite (fle_trans _ _ _ C E) in Hst. discriminate.
        -- eapply Hfirst; [eassumption | lia].
    + destruct (IH y i (S i) ltac:(lia) Hy Ht) as (Hle & Hst & Hub & Hfirst).
      assert (Hmy : (mp <=? y) = true).
      { destruct (fle_total mp y Hmp Hy) as [H|H]; [exact H | congruence]. }
      split; [eapply fle_trans; eassumption|]. split; [|split].
      * right. destruct (best_from y t <=? mp) eqn:C; [|reflexivity].
        rewrite (fle_trans _ _ _ Hle C) in E. discriminate.
      * intros [|j] x Hj; simpl in Hj.
        -- injection Hj as <-. exact Hle.
        -- eapply Hub; eassumption.
      * intros [|j] x Hj Hk; simpl in Hj.
        -- injection Hj as <-.
           destruct Hst as [Heq|Hst]; [rewrite Heq in Hk; lia | exact Hst].
        -- eapply Hfirst; [eassumption | lia].
Qed.

(** Without NaN, [argmax] returns the first position of a maximum. *)
Lemma argmax_first_max (p : list F) k :
  Forall (fun x => isnan x = false) p ->
  argmax p = Ok k ->
  exists m,
    p !! k = Some m /\
    (forall j x, p !! j = Some x -> (x <=? m) = true) /\
    (forall j x, p !! j = Some x -> (j < k)%nat -> (m <=? x) = false).
Proof.
  destruct p as [|x t]; [discriminate|]. intros Hall Hk.
  pose proof (argmax_value _ _ _ Hk) as Hv.
  inversion Hall as [|? ? Hx Ht]; subst. rewrite Hx in Hv.
  simpl in Hk. rewrite Hx in Hk. injection Hk as Hk.
  destruct (argmax_from_max t x 0%nat 1%nat ltac:(lia) Hx Ht)
    as (Hle & Hst & Hub & Hfirst).
  rewrite Hk in Hst, Hfirst.
  exists (best_from x t). split; [exact Hv | split].
  - intros [|j] y Hj; simpl in Hj.
    + injection Hj as <-. exact Hle.
    + eapply Hub; eassumption.
  - intros [|j] y Hj Hlt; simpl in Hj.
    + injection Hj as <-. destruct Hst as [Heq|Hst]; [lia | exact Hst].
    + eapply Hfirst; [eassumption | lia].
Qed.

Lemma argmax_from_nan p : forall mp idx i,
  (idx < i)%nat -> isnan mp = false ->
  Exists (fun x => isnan x = true) p ->
  let k := argmax_from mp idx i p in
  exists x, (i <= k)%nat /\ p !! (k - i)%nat = Some x /\ isnan x = true /\
    forall j y, p !! j = Some y -> (i + j < k)%nat -> isnan y = false.
Proof.
  induction p as [|y t IH]; intros mp idx i Hlt Hmp Hex; simpl.
  - inversion Hex.
  - destruct (isnan y) eqn:Hy.
    + rewrite (fle_nan y mp Hy). simpl.
      exists y. rewrite Nat.sub_diag. repeat split; auto. intros j z _ H. lia.
    + assert (Hex' : Exists (fun x => isnan x = true) t).
      { inversion Hex as [? ? H|]; subst; [congruence | assumption]. }
      assert (Hstep : forall mp' idx', (idx' < S i)%nat -> isnan mp' = false ->
        exists x, (i <= argmax_from mp' idx' (S i) t)%nat /\
          (y :: t) !! (argmax_from mp' idx' (S i) t - i)%nat = Some x /\
          isnan x = true /\
          forall j z, (y :: t) !! j = Some z ->
            (i + j < argmax_from mp' idx' (S i) t)%nat -> isnan z = false).
      { intros mp' idx' Hlt' Hmp'.
        destruct (IH mp' idx' (S i) Hlt' Hmp' Hex') as (x & Hge & Hk & Hx & Hfirst).
        exists x. split; [lia|]. split; [|split; [exact Hx|]].
        - replace (argmax_from mp' idx' (S i) t - i)%nat
            with (S (argmax_from mp' idx' (S i) t - S i)) by lia.
          exact Hk.
        - intros [|j] z Hj Hlt''; simpl in Hj.
          + injection Hj as <-. exact Hy.
          + eapply Hfirst; [eassumption | lia]. }
      destruct (negb (y <=? mp)); apply Hstep; auto; lia.
Qed.

(** With a NaN, it returns the position of the first one. *)
Lemma argmax_first_nan (p : list F) k :
  Exists (fun x => isnan x = true) p ->
  argmax p = Ok k ->
  exists x, p !! k = Some x /\ isnan x = true /\
    forall j y, p !! j = Some y -> (j < k)%nat -> isnan y = false.
Proof.
  destruct p as [|x t]; [discriminate|]. intros Hex Hk.
  simpl in Hk. destruct (isnan x) eqn:Hx.
  - injection Hk as <-. exists x. repeat split; auto. intros j y _ H. lia.
  - injection Hk as Hk.
    assert (Hex' : Exists (fun x => isnan x = true) t).
    { inversion Hex as [? ? H|]; subst; [congruence | assumption]. }
    destruct (argmax_from_nan t x 0%nat 1%nat ltac:(lia) Hx Hex')
      as (z & Hge & Hz & Hnan & Hfirst).
    rewrite Hk in Hge, Hz, Hfirst.
    exists z. destruct k as [|k]; [lia|].
    replace (S k - 1)%nat with k in Hz by lia.
    split; [exact Hz | split; [exact Hnan|]].
    intros [|j] y Hj Hlt; simpl in Hj.
    + injection Hj as <-. exact Hx.
    + eapply Hfirst; [eassumption | lia].
Qed.

End FirstMaximum.

(** ** Running the monad *)

Lemma bind_Ok {A B} (c : M A) (k : A -> M B) s a s' :
  c s = (Ok a, s') -> bind c k s = k a s'.
Proof. intros H. unfold bind. rewrite H. reflexivity. Qed.

Lemma bind_Raise {A B} (c : M A) (k : A -> M B) s e s' :
  c s = (Raise e, s') -> bind c k s = (Raise e, s').
Proof. intros H. unfold bind. rewrite H. reflexivity. Qed.

Lemma getattr_Some name v s :
  lookup_attr (attrs s) name = Some v -> getattr name s = (Ok v, s).
Proof. intros H. unfold getattr. rewrite H. reflexivity. Qed.

Lemma getattr_None name s :
  lookup_attr (attrs s) name = None ->
  getattr name s = (Raise (AttributeError name), s).
Proof. intros H. unfold getattr. rewrite H. reflexivity. Qed.

Lemma lookup_attr_insert a name v :
  lookup_attr (<[name := v]> a) name = Some v.
Proof. unfold lookup_attr. rewrite lookup_insert_eq. reflexivity. Qed.

Lemma lookup_attr_insert_ne a name name' v :
  name <> name' ->
  lookup_attr (<[name := v]> a) name' = lookup_attr a name'.
Proof. intros H. unfold lookup_attr. rewrite lookup_insert_ne by exact H. reflexivity. Qed.

(** ** [reset] *)

(** C10. [reset] assigns local names only: it returns with the tracker
    object, and everything around it, exactly as it found them. *)
Theorem reset_changes_nothing (s : state) :
  reset s = (Ok tt, s) /\
  forall name, getattr name (snd (reset s)) = getattr name s.
Proof.
  split.
  - unfold reset, ret. reflexivity.
  - intros name. unfold reset, ret. simpl. reflexivity.
Qed.

(** ** [launch_tracker] without [Voc] *)

(** C4. When [self.Voc] is [None], [launch_tracker] returns the empty list
    without an exception; no call reaches the instrument and the object is
    left as it was. *)
Theorem launch_tracker_Voc_None duration cb NPLC fuel (s : state) :
  lookup_attr (attrs s) "Voc" = Some PNone ->
  launch_tracker duration cb NPLC fuel s = (Ok [], s).
Proof.
  intros H. unfold launch_tracker.
  rewrite (bind_Ok _ _ _ _ _ (getattr_Some _ _ _ H)). reflexivity.
Qed.

(** ** The compliance attribute *)

(** C5. On an object on which only [Voc] has been set, [launch_tracker]
    stops at the first read of [self.current_compliance]: the class
    declares [currentCompliance], so the name is found nowhere and
    [AttributeError] is raised before any call reaches the instrument. *)
Theorem launch_tracker_current_compliance_missing duration cb NPLC fuel :
  fst (launch_tracker duration cb NPLC fuel Voc_only_tracker)
    = Raise (AttributeError "current_compliance") /\
  trace (snd (launch_tracker duration cb NPLC fuel Voc_only_tracker)) = [] /\
  lookup_attr (attrs (snd (launch_tracker duration cb NPLC fuel Voc_only_tracker)))
    "currentCompliance" = Some PNone.
Proof. repeat split; vm_compute; reflexivity. Qed.

(** ** What a computation sends to the instrument *)

Lemma emits_ret {A} P (Q : A -> Prop) a : Q a -> emits P Q (ret a).
Proof.
  intros H s. exists []. simpl. rewrite app_nil_r. auto.
Qed.

Lemma emits_raise {A} P (Q : A -> Prop) e : emits P Q (raise e).
Proof.
  intros s. exists []. simpl. rewrite app_nil_r. auto.
Qed.

Lemma emits_bind {A B} P (R : A -> Prop) (Q : B -> Prop) c k :
  emits P R c -> (forall a, R a -> emits P Q (k a)) -> emits P Q (bind c k).
Proof.
  intros Hc Hk s. destruct (Hc s) as (m1 & Ht & HP & HR).
  unfold bind. destruct (c s) as [[a|e] s1]; simpl in *.
  - destruct (Hk a HR s1) as (m2 & Ht2 & HP2 & HQ).
    exists (m1 ++ m2). rewrite Ht2, Ht, app_assoc.
    split; [reflexivity | split; [apply Forall_app; auto | exact HQ]].
  - exists m1. auto.
Qed.

Lemma emits_weaken {A} (P P' : call -> Prop) (Q Q' : A -> Prop) c :
  (forall x, P x -> P' x) -> (forall a, Q a -> Q' a) ->
  emits P Q c -> emits P' Q' c.
Proof.
  intros HP HQ Hc s. destruct (Hc s) as (m & Ht & Hm & Hr).
  exists m. split; [exact Ht | split].
  - eapply Forall_impl; eauto.
  - destruct (fst (c s)); auto.
Qed.

(** A computation that leaves the trace alone. *)
Lemma emits_silent {A} P (Q : A -> Prop) (c : M A) :
  (forall s, trace (snd (c s)) = trace s) ->
  (forall s a, fst (c s) = Ok a -> Q a) ->
  emits P Q c.
Proof.
  intros Ht HQ s. exists []. rewrite app_nil_r.
  split; [apply Ht | split; [constructor|]].
  destruct (fst (c s)) eqn:E; eauto.
Qed.

Lemma emits_getattr P name : emits P (fun _ => True) (getattr name).
Proof.
  apply emits_silent; [|auto].
  intros s. unfold getattr. destruct (lookup_attr _ _); reflexivity.
Qed.

Lemma emits_setattr P name v : emits P (fun _ => True) (setattr name v).
Proof. apply emits_silent; [reflexivity | auto]. Qed.

Lemma emits_time_time P : emits P (fun _ => True) time_time.
Proof. apply emits_silent; [reflexivity | auto]. Qed.

Lemma emits_as_float P v : emits P (fun x => v = PFloat x) (as_float v).
Proof.
  destruct v; simpl; [apply emits_raise | apply emits_ret; reflexivity].
Qed.

Lemma emits_fdiv P a b :
  emits P (fun c => c = a / b /\ (b =? lit 0) = false) (fdiv a b).
Proof.
  unfold fdiv. destruct (b =? lit 0) eqn:E; [apply emits_raise|].
  apply emits_ret. split; reflexivity.
Qed.

Lemma emits_lift {A} P (r : result A) : emits P (fun a => r = Ok a) (lift r).
Proof.
  destruct r; simpl; [apply emits_ret; reflexivity | apply emits_raise].
Qed.

Lemma emits_index_last {A} P (l : list A) :
  emits P (fun a => last l = Some a) (index_last l).
Proof.
  unfold index_last. destruct (last l); [apply emits_ret; reflexivity | apply emits_raise].
Qed.

Lemma emits_elapsed P : emits P (fun _ => True) elapsed.
Proof.
  unfold elapsed.
  eapply emits_bind; [apply emits_time_time | intros now _].
  eapply emits_bind; [apply emits_getattr | intros t0 _].
  eapply emits_bind; [apply emits_as_float | intros t _].
  apply emits_ret. exact I.
Qed.

Lemma emits_call {A} (P : call -> Prop) (c : M A) x :
  (forall s, trace (snd (c s)) = trace s ++ [x]) -> P x ->
  emits P (fun _ => True) c.
Proof.
  intros Ht HP s. exists [x]. split; [apply Ht | split; [auto|]].
  destruct (fst (c s)); exact I.
Qed.

Lemma emits_setOutput (P : call -> Prop) v :
  P (SetOutput v) -> emits P (fun _ => True) (sm_setOutput v).
Proof. apply emits_call. reflexivity. Qed.

Lemma emits_measure (P : call -> Prop) :
  P Measure -> emits P (fun _ => True) sm_measure.
Proof. apply emits_call. reflexivity. Qed.

Lemma emits_measureUntil (P : call -> Prop) t cb :
  P (MeasureUntil t cb) -> emits P (fun _ => True) (sm_measureUntil t cb).
Proof. apply emits_call. reflexivity. Qed.

Lemma emits_angle P i v Voc Isc :
  emits P (fun _ => True) (angle i v Voc Isc).
Proof.
  unfold angle.
  eapply emits_bind; [apply emits_fdiv | intros a _].
  eapply emits_bind; [apply emits_as_float | intros isc _].
  eapply emits_bind; [apply emits_fdiv | intros c _].
  apply emits_ret. exact I.
Qed.

(** ** The walk of the exploration *)

(** Case analysis on the comparisons of a goal, innermost first. *)
Ltac no_if t :=
  lazymatch t with
  | context [if _ then _ else _] => fail
  | _ => idtac
  end.

Ltac cmp_case :=
  match goal with
  | |- context [flt ?a ?b] =>
      no_if a; no_if b; let E := fresh "E" in destruct (flt a b) eqn:E
  | |- context [fle ?a ?b] =>
      no_if a; no_if b; let E := fresh "E" in destruct (fle a b) eqn:E
  end.

Ltac walk_cases :=
  repeat (cmp_case;
          cbn [v_set dV highEdgeTouched lowEdgeTouched q i_explore v_explore
               andb orb negb set_walk turn_high turn_low] in *).

Ltac open_walk w :=
  destruct w as [? ? ? ? ? ? ?];
  unfold walk_on, angle_edges, boundary_edges in *;
  cbn [v_set dV highEdgeTouched lowEdgeTouched q i_explore v_explore
       set_walk turn_high turn_low fed] in *.

(** A pass leaves the buffers alone. *)
Lemma walk_on_buffers Voc dAngle w :
  let w' := walk_on Voc dAngle w in
  q w' = q w /\ i_explore w' = i_explore w /\ v_explore w' = v_explore w.
Proof.
  open_walk w. walk_cases; repeat split; reflexivity.
Qed.

(** An edge once touched stays touched, and each angle test touches its
    edge. *)
Lemma walk_on_edges Voc dAngle w :
  let w' := walk_on Voc dAngle w in
  (highEdgeTouched w = true -> highEdgeTouched w' = true) /\
  (lowEdgeTouched w = true -> lowEdgeTouched w' = true) /\
  ((dAngleMax <? dAngle) = true -> highEdgeTouched w' = true) /\
  ((dAngle <? - dAngleMax) = true -> lowEdgeTouched w' = true).
Proof.
  open_walk w. walk_cases;
    repeat split; intros; first [reflexivity | assumption | discriminate].
Qed.

(** *** Invariants of the inner loop *)

Section ScanInvariant.

Variables (angleMpp Voc : F) (Isc : pyval).
Variable P : call -> Prop.
Variable I : scan -> Prop.

Hypothesis P_measure : P Measure.
Hypothesis P_setpoint : forall w,
  I w -> highEdgeTouched w && lowEdgeTouched w = false -> P (SetOutput (v_set w)).
Hypothesis I_step : forall w m dAngle,
  I w -> highEdgeTouched w && lowEdgeTouched w = false ->
  I (walk_on Voc dAngle (fed w m)).

Lemma emits_explore_step w :
  I w -> highEdgeTouched w && lowEdgeTouched w = false ->
  emits P I (explore_step angleMpp Voc Isc w).
Proof.
  intros HI Hf. unfold explore_step.
  eapply emits_bind; [apply emits_setOutput; auto | intros _ _].
  eapply emits_bind; [apply emits_measure; auto | intros m _].
  eapply emits_bind; [apply emits_angle | intros a _].
  apply emits_ret. apply (I_step w m); assumption.
Qed.

Lemma emits_explore_loop fuel : forall w,
  I w ->
  emits P (fun w' => I w' /\ highEdgeTouched w' && lowEdgeTouched w' = true)
    (explore_loop fuel angleMpp Voc Isc w).
Proof.
  induction fuel as [|fuel IH]; intros w HI; simpl;
    destruct (highEdgeTouched w && lowEdgeTouched w) eqn:Hf;
    try (apply emits_ret; auto); try apply emits_raise.
  eapply emits_bind; [apply emits_explore_step; assumption | intros w' HI'].
  apply IH. exact HI'.
Qed.

End ScanInvariant.

Lemma buffers_step Voc dAngle q0 vm im visited w m :
  buffers q0 vm im visited w ->
  buffers q0 vm im (visited ++ [m]) (walk_on Voc dAngle (fed w m)).
Proof.
  intros (Hq & Hv & Hi).
  destruct (walk_on_buffers Voc dAngle (fed w m)) as (Eq & Ei & Ev).
  unfold buffers. rewrite Eq, Ei, Ev. simpl.
  rewrite Hq, Hv, Hi, !map_app, app_assoc. auto.
Qed.

(** The selection written out at lines 181-184 is [which_max_power]. *)
Lemma inline_selection (vector : list Sample) k a b :
  argmax (power_of (map voltage vector) (map current vector)) = Ok k ->
  index (map voltage vector) k = Ok a ->
  index (map current vector) k = Ok b ->
  exists Pmax, which_max_power vector = Ok (Pmax, a, b, k).
Proof.
  intros Hk Ha Hb. unfold which_max_power. rewrite Hk, Ha, Hb.
  unfold index in *. rewrite power_of_lookup.
  rewrite lookup_map in Ha.
  destruct (vector !! k) as [e|]; [|discriminate]. simpl. eauto.
Qed.

Lemma index_In {A} (l : list A) k a : index l k = Ok a -> In a l.
Proof.
  unfold index. destruct (l !! k) eqn:E; [|discriminate].
  intros [= <-]. apply list_elem_of_In. eapply list_elem_of_lookup_2. exact E.
Qed.

(** ** Passes of the inner loop *)

Lemma angle_run i v Voc isc s :
  (v =? lit 0) = false -> (isc =? lit 0) = false ->
  angle i v Voc (PFloat isc) s = (Ok (atan_deg (i / v * Voc / isc)), s).
Proof.
  intros Hv Hi. unfold angle, bind, fdiv, as_float, ret.
  rewrite Hv, Hi. reflexivity.
Qed.

Lemma explore_step_run angleMpp Voc isc w s :
  let m := measures s (n_measure s) in
  (voltage m =? lit 0) = false -> (isc =? lit 0) = false ->
  explore_step angleMpp Voc (PFloat isc) w s
  = (Ok (walk_on Voc (dAngle_of angleMpp Voc isc m) (fed w m)),
     measured w s).
Proof.
  intros m Hv Hi. unfold explore_step, bind at 1 2 3. simpl.
  rewrite angle_run by assumption. reflexivity.
Qed.

Lemma explore_loop_done fuel angleMpp Voc Isc w s :
  highEdgeTouched w && lowEdgeTouched w = true ->
  explore_loop fuel angleMpp Voc Isc w s = (Ok w, s).
Proof. intros H. destruct fuel; simpl; rewrite H; reflexivity. Qed.

Lemma explore_loop_next fuel angleMpp Voc Isc w s w1 s1 :
  highEdgeTouched w && lowEdgeTouched w = false ->
  explore_step angleMpp Voc Isc w s = (Ok w1, s1) ->
  explore_loop (S fuel) angleMpp Voc Isc w s
  = explore_loop fuel angleMpp Voc Isc w1 s1.
Proof. intros Hf Hs. simpl. rewrite Hf. unfold bind. rewrite Hs. reflexivity. Qed.

(** The loop returns with both flags set, when it returns. *)
Lemma explore_loop_flags fuel angleMpp Voc Isc : forall w s w' s',
  explore_loop fuel angleMpp Voc Isc w s = (Ok w', s') ->
  highEdgeTouched w' = true /\ lowEdgeTouched w' = true.
Proof.
  induction fuel as [|fuel IH]; intros w s w' s'; simpl;
    destruct (highEdgeTouched w && lowEdgeTouched w) eqn:Hf;
    try (intros [= <- <-]; apply andb_true_iff; exact Hf);
    try discriminate.
  unfold bind. destruct (explore_step _ _ _ w s) as [[w1|e] s1];
    [apply IH | discriminate].
Qed.

Lemma angle_state i v Voc Isc s :
  snd (angle i v Voc Isc s) = s.
Proof.
  unfold angle, bind, fdiv, as_float, ret, raise.
  destruct (v =? lit 0); [reflexivity|].
  destruct Isc as [|isc]; [reflexivity|].
  destruct (_ =? lit 0); reflexivity.
Qed.

Lemma explore_step_inv angleMpp Voc Isc w s w1 s1 :
  explore_step angleMpp Voc Isc w s = (Ok w1, s1) ->
  s1 = measured w s /\
  exists dAngle, w1 = walk_on Voc dAngle (fed w (measures s (n_measure s))).
Proof.
  unfold explore_step, bind at 1 2 3. simpl.
  set (m := measures s (n_measure s)).
  pose proof (angle_state (current m) (voltage m) Voc Isc (measured w s)) as Hs.
  unfold measured in Hs.
  destruct (angle (current m) (voltage m) Voc Isc _) as [[a|e] s2];
    simpl in Hs; [|discriminate].
  intros [= <- <-]. split; [exact Hs | eauto].
Qed.

(** A pass sends its setpoint and takes its measurement even when the
    angle of the sample cannot be computed. *)
Lemma explore_step_state angleMpp Voc Isc w s :
  snd (explore_step angleMpp Voc Isc w s) = measured w s.
Proof.
  unfold explore_step, bind at 1 2 3. simpl.
  set (m := measures s (n_measure s)).
  pose proof (angle_state (current m) (voltage m) Voc Isc (measured w s)) as Hs.
  unfold measured in Hs.
  destruct (angle (current m) (voltage m) Voc Isc _) as [[a|e] s2];
    simpl in *; exact Hs.
Qed.

(** *** The designed exit *)

Section BothEdges.

Variables angleMpp Voc isc : F.
Hypothesis isc_nonzero : (isc =? lit 0) = false.

Lemma explore_loop_both_edges : forall n w s,
  readable s n ->
  pending (beyond_high angleMpp Voc isc) (highEdgeTouched w) s n ->
  pending (beyond_low angleMpp Voc isc) (lowEdgeTouched w) s n ->
  exists w' s',
    explore_loop n angleMpp Voc (PFloat isc) w s = (Ok w', s') /\
    (n_measure s' <= n_measure s + n)%nat.
Proof.
  induction n as [|n IH]; intros w s Hr Hh Hl.
  - destruct Hh as [Hh|(j & Hj & _)]; [|lia].
    destruct Hl as [Hl|(j & Hj & _)]; [|lia].
    exists w, s. split; [|lia].
    apply explore_loop_done. rewrite Hh, Hl. reflexivity.
  - destruct (highEdgeTouched w && lowEdgeTouched w) eqn:Hf.
    { exists w, s. split; [apply explore_loop_done; exact Hf | lia]. }
    assert (Hv : (voltage (measures s (n_measure s)) =? lit 0) = false).
    { specialize (Hr 0%nat ltac:(lia)). rewrite Nat.add_0_r in Hr. exact Hr. }
    rewrite (explore_loop_next _ _ _ _ _ _ _ _ Hf
               (explore_step_run _ _ _ _ _ Hv isc_nonzero)).
    set (m := measures s (n_measure s)).
    destruct (walk_on_edges Voc (dAngle_of angleMpp Voc isc m) (fed w m))
      as (Kh & Kl & Ah & Al).
    cbn [fed highEdgeTouched lowEdgeTouched] in Kh, Kl.
    destruct (IH (walk_on Voc (dAngle_of angleMpp Voc isc m) (fed w m))
                (measured w s)) as (w' & s' & Hrun & Hn).
    + intros j Hj. specialize (Hr (S j) ltac:(lia)).
      cbn [measured measures n_measure].
      replace (S (n_measure s) + j)%nat with (n_measure s + S j)%nat by lia.
      exact Hr.
    + destruct Hh as [Hh|([|j] & Hj & Hb)].
      * left. apply Kh, Hh.
      * left. apply Ah. rewrite Nat.add_0_r in Hb. exact Hb.
      * right. exists j. split; [lia|].
        cbn [measured measures n_measure].
        replace (S (n_measure s) + j)%nat with (n_measure s + S j)%nat by lia.
        exact Hb.
    + destruct Hl as [Hl|([|j] & Hj & Hb)].
      * left. apply Kl, Hl.
      * left. apply Al. rewrite Nat.add_0_r in Hb. exact Hb.
      * right. exists j. split; [lia|].
        cbn [measured measures n_measure].
        replace (S (n_measure s) + j)%nat with (n_measure s + S j)%nat by lia.
        exact Hb.
    + exists w', s'. split; [exact Hrun|].
      cbn [measured n_measure] in Hn. lia.
Qed.

End BothEdges.


(** *** A scan that never returns *)

Section Stuck.

Variables angleMpp Voc isc : F.
Variable m : Sample.
Variable I : scan -> Prop.

Hypothesis isc_nonzero : (isc =? lit 0) = false.
Hypothesis m_readable : (voltage m =? lit 0) = false.
Hypothesis I_low : forall w, I w -> lowEdgeTouched w = false.
Hypothesis I_step : forall w,
  I w -> I (walk_on Voc (dAngle_of angleMpp Voc isc m) (fed w m)).

(** On an instrument that always answers [m], a walk that stays in [I]
    never touches the low edge. *)
Lemma explore_loop_stuck fuel : forall w s,
  (forall j, measures s j = m) -> I w ->
  exists s',
    explore_loop fuel angleMpp Voc (PFloat isc) w s = (Raise OutOfFuel, s').
Proof.
  induction fuel as [|fuel IH]; intros w s Hm HI.
  - simpl. rewrite (I_low w HI), andb_false_r. eexists. reflexivity.
  - assert (Hf : highEdgeTouched w && lowEdgeTouched w = false)
      by (rewrite (I_low w HI); apply andb_false_r).
    assert (Hr : (voltage (measures s (n_measure s)) =? lit 0) = false)
      by (rewrite Hm; exact m_readable).
    rewrite (explore_loop_next _ _ _ _ _ _ _ _ Hf
               (explore_step_run _ _ _ _ _ Hr isc_nonzero)).
    rewrite Hm.
    apply IH; [exact Hm | apply I_step; exact HI].
Qed.

End Stuck.

(** ** The exploration scan *)

(** The samples a completed loop has appended to [q] are those the
    instrument returned, in order. *)
Lemma explore_loop_reads angleMpp Voc Isc fuel : forall w s w' s',
  explore_loop fuel angleMpp Voc Isc w s = (Ok w', s') ->
  exists n,
    q w' = q w ++ map (measures s) (seq (n_measure s) n) /\
    measures s' = measures s /\ n_measure s' = (n_measure s + n)%nat.
Proof.
  induction fuel as [|fuel IH]; intros w s w' s'; simpl;
    destruct (highEdgeTouched w && lowEdgeTouched w);
    try (intros [= <- <-]; exists 0%nat; simpl;
         rewrite app_nil_r, Nat.add_0_r; auto);
    try discriminate.
  unfold bind.
  destruct (explore_step angleMpp Voc Isc w s) as [[w1|e] s1] eqn:Hstep;
    [|discriminate].
  intros Hloop.
  destruct (explore_step_inv _ _ _ _ _ _ _ Hstep) as [-> [dAngle ->]].
  destruct (IH _ _ _ _ Hloop) as (n & Hq & Hm & Hn).
  destruct (walk_on_buffers Voc dAngle (fed w (measures s (n_measure s))))
    as (Eq & _ & _).
  exists (S n). rewrite Hq, Eq. simpl.
  rewrite <- app_assoc. split; [reflexivity|].
  split; [exact Hm | rewrite Hn; simpl; lia].
Qed.

Lemma explore_step_q angleMpp Voc Isc w s w1 :
  fst (explore_step angleMpp Voc Isc w s) = Ok w1 ->
  length (q w1) = S (length (q w)).
Proof.
  intros H.
  destruct (explore_step angleMpp Voc Isc w s) as [r s1] eqn:E.
  simpl in H. subst r.
  destruct (explore_step_inv _ _ _ _ _ _ _ E) as [_ [dAngle ->]].
  destruct (walk_on_buffers Voc dAngle (fed w (measures s (n_measure s))))
    as (Eq & _ & _).
  rewrite Eq. simpl. rewrite length_app. simpl. lia.
Qed.

Lemma explore_loop_visits angleMpp Voc Isc fuel : forall w s,
  exists setpoints,
    trace (snd (explore_loop fuel angleMpp Voc Isc w s))
      = trace s ++ visits setpoints /\
    n_measure (snd (explore_loop fuel angleMpp Voc Isc w s))
      = (n_measure s + length setpoints)%nat /\
    (highEdgeTouched w && lowEdgeTouched w = false -> fuel <> 0%nat ->
     hd_error setpoints = Some (v_set w)) /\
    (forall w', fst (explore_loop fuel angleMpp Voc Isc w s) = Ok w' ->
       length (q w') = (length (q w) + length setpoints)%nat).
Proof.
  induction fuel as [|fuel IH]; intros w s; simpl;
    destruct (highEdgeTouched w && lowEdgeTouched w) eqn:Hf;
    try (exists []; simpl; rewrite app_nil_r, !Nat.add_0_r;
         repeat split; try congruence;
         intros w' H; first [discriminate | injection H as <-; reflexivity]).
  unfold bind.
  pose proof (explore_step_state angleMpp Voc Isc w s) as Hs.
  pose proof (explore_step_q angleMpp Voc Isc w s) as Hq.
  destruct (explore_step angleMpp Voc Isc w s) as [[w1|e] s1];
    simpl in Hs; subst s1.
  - destruct (IH w1 (measured w s)) as (sp & Ht & Hn & _ & Hlen).
    exists (v_set w :: sp). rewrite Ht, Hn. simpl.
    rewrite <- !app_assoc. simpl.
    repeat split; try lia.
    intros w' Hw'. rewrite (Hlen w' Hw'), (Hq w1 eq_refl). lia.
  - exists [v_set w]. simpl. rewrite <- app_assoc. simpl.
    repeat split; try lia. discriminate.
Qed.

(** The calls of an exploration, whatever its outcome. *)
Lemma exploration_scan_calls fuel Voc Isc (l : locals) (s : state) r s' :
  exploration_scan fuel Voc Isc l s = (r, s') ->
  exists setpoints,
    trace s' = trace s ++ visits setpoints /\
    n_measure s' = (n_measure s + length setpoints)%nat /\
    forall dV' q' Impp' Vmpp',
      r = Ok (dV', q', Impp', Vmpp') ->
      length q' = (length (l_q l) + length setpoints)%nat /\
      exists vm, l_Vmpp l = PFloat vm /\ hd_error setpoints = Some vm.
Proof.
  assert (Hfail : forall e sx sp,
    trace sx = trace s ++ visits sp ->
    n_measure sx = (n_measure s + length sp)%nat ->
    (Raise e, sx) = (r, s') ->
    exists setpoints,
      trace s' = trace s ++ visits setpoints /\
      n_measure s' = (n_measure s + length setpoints)%nat /\
      forall dV' q' Impp' Vmpp',
        r = Ok (dV', q', Impp', Vmpp') ->
        length q' = (length (l_q l) + length setpoints)%nat /\
        exists vm, l_Vmpp l = PFloat vm /\ hd_error setpoints = Some vm).
  { intros e sx sp Ht Hn [= <- <-]. exists sp. repeat split; auto; discriminate. }
  assert (Hnone : forall e, (Raise e, s) = (r, s') ->
    exists setpoints,
      trace s' = trace s ++ visits setpoints /\
      n_measure s' = (n_measure s + length setpoints)%nat /\
      forall dV' q' Impp' Vmpp',
        r = Ok (dV', q', Impp', Vmpp') ->
        length q' = (length (l_q l) + length setpoints)%nat /\
        exists vm, l_Vmpp l = PFloat vm /\ hd_error setpoints = Some vm).
  { intros e. apply (Hfail e s []); simpl; [rewrite app_nil_r | lia]; reflexivity. }
  unfold exploration_scan, bind.
  destruct (l_Impp l) as [|im]; [apply Hnone|].
  destruct (l_Vmpp l) as [|vm]; [apply Hnone|].
  cbv [as_float ret raise].
  pose proof (angle_state im vm Voc Isc s) as Ha.
  destruct (angle im vm Voc Isc s) as [[a|e] sa]; simpl in Ha; subst sa;
    [|apply Hnone].
  clear Hnone.
  set (w0 := mkScan vm (l_dV l) false false (l_q l) [im] [vm]).
  destruct (explore_loop_visits a Voc Isc fuel w0 s)
    as (sp & Ht & Hn & Hhd & Hlen).
  destruct (explore_loop fuel a Voc Isc w0 s) as [[w|e] s2] eqn:Hloop;
    simpl in Ht, Hn, Hlen; [|apply (Hfail e s2 sp Ht Hn)].
  assert (Hfuel : fuel <> 0%nat).
  { intros ->. simpl in Hloop. discriminate. }
  specialize (Hhd eq_refl Hfuel).
  specialize (fun e => Hfail e s2 sp Ht Hn).
  destruct (argmax _) as [k|e]; cbv [lift ret raise]; [|apply Hfail].
  destruct (index (v_explore w) k) as [x|e]; cbv [lift ret raise]; [|apply Hfail].
  destruct (index (i_explore w) k) as [y|e]; cbv [lift ret raise]; [|apply Hfail].
  pose proof (angle_state y x Voc Isc s2) as Hb.
  destruct (angle y x Voc Isc s2) as [[a'|e] sb]; simpl in Hb; subst sb;
    [|apply Hfail].
  intros [= <- <-]. exists sp.
  split; [exact Ht | split; [exact Hn|]].
  intros dV' q' Impp' Vmpp' [= _ <- _ _].
  split; [apply Hlen; reflexivity | exists vm; split; [reflexivity | exact Hhd]].
Qed.

Lemma exploration_scan_reads fuel Voc Isc (l : locals) (s : state)
    dV' q' Impp' Vmpp' :
  fst (exploration_scan fuel Voc Isc l s) = Ok (dV', q', Impp', Vmpp') ->
  exists n, q' = l_q l ++ map (measures s) (seq (n_measure s) n).
Proof.
  unfold exploration_scan, bind.
  destruct (l_Impp l) as [|im]; [discriminate|].
  destruct (l_Vmpp l) as [|vm]; [discriminate|].
  simpl as_float. unfold ret at 1 2.
  pose proof (angle_state im vm Voc Isc s) as Ha.
  destruct (angle im vm Voc Isc s) as [[a|e] sa]; [|discriminate].
  simpl in Ha. subst sa.
  destruct (explore_loop _ _ _ _ _ s) as [[w|e] s2] eqn:Hloop; [|discriminate].
  destruct (explore_loop_reads _ _ _ _ _ _ _ _ Hloop) as (n & Hq & _).
  destruct (argmax _) as [k|e]; [|discriminate]. simpl lift. unfold ret at 1.
  destruct (index (v_explore w) k) as [x|e]; [|discriminate].
  simpl lift. unfold ret at 1.
  destruct (index (i_explore w) k) as [y|e]; [|discriminate].
  simpl lift. unfold ret at 1.
  destruct (angle y x Voc Isc s2) as [[a'|e] sb]; [|discriminate].
  unfold ret. simpl. intros [= _ <- _ _]. exists n. exact Hq.
Qed.

(** What a completed exploration has selected. *)
Lemma exploration_scan_selects fuel Voc Isc (l : locals) :
  emits any_call
    (fun r => let '(_, q', Impp', Vmpp') := r in
       exists vm im visited,
         l_Vmpp l = PFloat vm /\ l_Impp l = PFloat im /\
         q' = l_q l ++ visited /\
         (Vmpp' = vm \/ In Vmpp' (map voltage visited)) /\
         forall tx st, exists Pmax idx,
           which_max_power (mkSample vm im tx st :: visited)
             = Ok (Pmax, Vmpp', Impp', idx))
    (exploration_scan fuel Voc Isc l).
Proof.
  unfold exploration_scan.
  eapply emits_bind; [apply emits_as_float | intros im Him].
  eapply emits_bind; [apply emits_as_float | intros vm Hvm].
  eapply emits_bind; [apply emits_angle | intros angleMpp _].
  eapply emits_bind.
  { apply (emits_explore_loop angleMpp Voc Isc any_call
             (fun w => exists visited, buffers (l_q l) vm im visited w)).
    - exact I.
    - intros; exact I.
    - intros w m dAngle [visited Hb] _. exists (visited ++ [m]).
      apply buffers_step. exact Hb.
    - exists []. unfold buffers. simpl. rewrite app_nil_r. auto. }
  intros w [[visited (Hq & Hv & Hi)] _].
  eapply emits_bind; [apply emits_lift | intros k Hk].
  eapply emits_bind; [apply emits_lift | intros a Ha].
  eapply emits_bind; [apply emits_lift | intros b Hb].
  eapply emits_bind; [apply emits_angle | intros ? _].
  apply emits_ret. exists vm, im, visited.
  repeat (split; [assumption|]). split.
  - apply index_In in Ha. rewrite Hv in Ha.
    destruct Ha as [<-|Ha]; auto.
  - intros tx st. rewrite Hv, Hi in *.
    destruct (inline_selection (mkSample vm im tx st :: visited) k a b)
      as [Pmax HP]; eauto.
Qed.

(** A completed exploration: the samples it has read, the calls it has
    made and the point it has selected. *)
Lemma exploration_scan_run fuel Voc Isc (l : locals) (s : state)
    dV' q' Impp' Vmpp' s' :
  exploration_scan fuel Voc Isc l s = (Ok (dV', q', Impp', Vmpp'), s') ->
  exists vm im visited setpoints,
    l_Vmpp l = PFloat vm /\ l_Impp l = PFloat im /\
    q' = l_q l ++ visited /\
    visited = map (measures s) (seq (n_measure s) (length visited)) /\
    n_measure s' = (n_measure s + length visited)%nat /\
    trace s' = trace s ++ visits setpoints /\
    hd_error setpoints = Some vm /\
    length setpoints = length visited /\
    (Vmpp' = vm \/ In Vmpp' (map voltage visited)) /\
    forall tx st, exists Pmax idx,
      which_max_power (mkSample vm im tx st :: visited)
        = Ok (Pmax, Vmpp', Impp', idx).
Proof.
  intros Hrun.
  assert (Hfst : fst (exploration_scan fuel Voc Isc l s) = Ok (dV', q', Impp', Vmpp'))
    by (rewrite Hrun; reflexivity).
  destruct (exploration_scan_selects fuel Voc Isc l s) as (more & _ & _ & Hpost).
  rewrite Hfst in Hpost.
  destruct Hpost as (vm & im & visited & Hvm & Him & Hq & Hin & Hsel).
  destruct (exploration_scan_reads _ _ _ _ _ _ _ _ _ Hfst) as (n & Hn).
  destruct (exploration_scan_calls _ _ _ _ _ _ _ Hrun) as (sp & Ht & Hm & Hok).
  destruct (Hok _ _ _ _ eq_refl) as (Hlen & vm' & Hvm' & Hhd).
  assert (vm' = vm) by congruence. subst vm'.
  assert (Hvis : visited = map (measures s) (seq (n_measure s) n)).
  { rewrite Hq in Hn. apply app_inv_head in Hn. exact Hn. }
  assert (Hlv : length visited = n)
    by (rewrite Hvis, length_map, length_seq; reflexivity).
  assert (Hls : length sp = length visited).
  { rewrite Hq, length_app in Hlen. lia. }
  exists vm, im, visited, sp.
  repeat (split; [assumption|]).
  split; [rewrite Hlv; exact Hvis|].
  split; [lia|].
  repeat (split; [assumption|]). exact Hsel.
Qed.



(** ** The initial acquisition *)

Ltac run_monad :=
  cbv [elapsed bind ret raise time_time getattr setattr as_float sm_setOutput
       sm_measureUntil sm_setupDC sm_write sm_setNPLC emit with_attrs
       index_last lift];
  cbn [attrs trace measures n_measure bursts n_burst clock n_clock fst snd].

(** The class declares [Vmpp]: the name is always found. *)
Lemma lookup_Vmpp_Some (a : gmap string pyval) :
  exists v, lookup_attr a "Vmpp" = Some v.
Proof.
  unfold lookup_attr. destruct (a !! "Vmpp"%string); eauto.
Qed.

(** A name the class declares is always found. *)
Lemma lookup_declared (a : gmap string pyval) name v0 :
  class_attrs !! name = Some v0 -> exists v, lookup_attr a name = Some v.
Proof.
  intros H. unfold lookup_attr. destruct (a !! name); [eauto|]. rewrite H. eauto.
Qed.

Ltac run_attrs HVoc Hcc HVmpp :=
  repeat (progress (run_monad;
    rewrite ?lookup_attr_insert, ?lookup_attr_insert_ne by done;
    rewrite ?HVoc, ?Hcc, ?HVmpp;
    cbn [is_None])).

(** The calls of lines 62-75, when [self.current_compliance] can be read. *)
Lemma initial_acquisition_calls duration NPLC (s : state) voc cc vmpp :
  lookup_attr (attrs s) "Voc" = Some (PFloat voc) ->
  lookup_attr (attrs s) "current_compliance" = Some cc ->
  lookup_attr (attrs s) "Vmpp" = Some vmpp ->
  exists r s',
    initial_acquisition duration NPLC s = (r, s') /\
    trace s' = trace s ++ soak_calls duration NPLC cc (seeded voc vmpp).
Proof.
  intros HVoc Hcc HVmpp. unfold initial_acquisition, soak_calls, nplc_calls.
  destruct vmpp as [|v]; destruct cc as [|c];
    destruct (negb (NPLC =? lit (-1)));
    run_attrs HVoc Hcc HVmpp;
    destruct (last (bursts s (n_burst s))) as [m|];
    run_attrs HVoc Hcc HVmpp;
    try (destruct (lookup_attr (attrs s) "Isc") as [[|isc]|];
         run_attrs HVoc Hcc HVmpp);
    do 2 eexists; (split; [reflexivity|]);
    cbn [trace provisional seeded is_None app];
    rewrite <- ?app_assoc; reflexivity.
Qed.

(** Without it the run stops at line 57, after [Vmpp] has been seeded. *)
Lemma initial_acquisition_no_compliance duration NPLC (s : state) voc vmpp :
  lookup_attr (attrs s) "Voc" = Some (PFloat voc) ->
  lookup_attr (attrs s) "current_compliance" = None ->
  lookup_attr (attrs s) "Vmpp" = Some vmpp ->
  exists s',
    initial_acquisition duration NPLC s
      = (Raise (AttributeError "current_compliance"), s') /\
    trace s' = trace s /\
    lookup_attr (attrs s') "Vmpp" = Some (seeded voc vmpp).
Proof.
  intros HVoc Hcc HVmpp. unfold initial_acquisition.
  destruct vmpp as [|v]; run_attrs HVoc Hcc HVmpp;
    eexists; (split; [reflexivity|]); (split; [reflexivity|]);
    cbn [attrs seeded is_None];
    rewrite ?lookup_attr_insert, ?lookup_attr_insert_ne by done; auto.
Qed.

Lemma initial_acquisition_commits duration NPLC (s : state) voc cc vmpp isc m :
  lookup_attr (attrs s) "Voc" = Some (PFloat voc) ->
  lookup_attr (attrs s) "current_compliance" = Some cc ->
  lookup_attr (attrs s) "Vmpp" = Some vmpp ->
  lookup_attr (attrs s) "Isc" = Some isc ->
  last (bursts s (n_burst s)) = Some m ->
  exists s1,
    initial_acquisition duration NPLC s = (Ok (bursts s (n_burst s)), s1) /\
    lookup_attr (attrs s1) "t0" = Some (PFloat (clock s (n_clock s))) /\
    lookup_attr (attrs s1) "Vmpp" = Some (seeded voc vmpp) /\
    lookup_attr (attrs s1) "Impp" = Some (PFloat (current m)) /\
    lookup_attr (attrs s1) "current_compliance" = Some (committed_compliance cc m) /\
    lookup_attr (attrs s1) "Isc" = Some (committed_Isc isc m) /\
    lookup_attr (attrs s1) "Voc" = Some (PFloat voc) /\
    measures s1 = measures s.
Proof.
  intros HVoc Hcc HVmpp HIsc Hlast. unfold initial_acquisition.
  destruct vmpp as [|v]; destruct cc as [|c]; destruct isc as [|i];
    destruct (negb (NPLC =? lit (-1)));
    repeat (progress (run_attrs HVoc Hcc HVmpp; rewrite ?Hlast, ?HIsc));
    eexists; (split; [reflexivity|]);
    cbn [attrs measures seeded committed_compliance committed_Isc is_None];
    repeat (rewrite lookup_attr_insert || rewrite lookup_attr_insert_ne by done);
    rewrite ?HVmpp, ?Hcc, ?HIsc, ?HVoc; auto 10.
Qed.

Lemma initial_acquisition_empty_soak duration NPLC (s : state) voc cc vmpp :
  lookup_attr (attrs s) "Voc" = Some (PFloat voc) ->
  lookup_attr (attrs s) "current_compliance" = Some cc ->
  lookup_attr (attrs s) "Vmpp" = Some vmpp ->
  last (bursts s (n_burst s)) = None ->
  exists s1,
    initial_acquisition duration NPLC s = (Raise IndexError, s1) /\
    trace s1 = trace s ++ soak_calls duration NPLC cc (seeded voc vmpp) /\
    lookup_attr (attrs s1) "Impp" = lookup_attr (attrs s) "Impp" /\
    lookup_attr (attrs s1) "current_compliance" = Some cc.
Proof.
  intros HVoc Hcc HVmpp Hlast. unfold initial_acquisition, soak_calls, nplc_calls.
  destruct vmpp as [|v]; destruct cc as [|c];
    destruct (negb (NPLC =? lit (-1)));
    repeat (progress (run_attrs HVoc Hcc HVmpp; rewrite ?Hlast));
    eexists; (split; [reflexivity|]);
    cbn [attrs trace seeded provisional is_None app];
    repeat (rewrite lookup_attr_insert || rewrite lookup_attr_insert_ne by done);
    rewrite <- ?app_assoc; rewrite ?Hcc; auto 10.
Qed.

(** ** The whole run only appends to the trace *)

Lemma emits_exploration_scan fuel Voc Isc l :
  emits any_call anything (exploration_scan fuel Voc Isc l).
Proof.
  eapply emits_weaken; [| |apply exploration_scan_selects];
    [auto | intros; exact I].
Qed.

Lemma emits_dwell_phase duration cb e :
  emits any_call anything (dwell_phase duration cb e).
Proof.
  destruct e as [[[dV q] Impp] Vmpp]. unfold dwell_phase.
  eapply emits_bind; [apply emits_elapsed | intros rt _].
  destruct (duration - rt <=? lit 0); [apply emits_ret; exact I|].
  eapply emits_bind; [apply emits_setOutput; exact I | intros _ _].
  eapply emits_bind; [apply emits_getattr | intros dw _].
  eapply emits_bind; [apply emits_as_float | intros dwell_time _].
  eapply emits_bind.
  { destruct cb; apply emits_measureUntil; exact I. }
  intros dq _.
  eapply emits_bind; [apply emits_index_last | intros m _].
  eapply emits_bind; [apply emits_elapsed | intros rt' _].
  apply emits_ret. exact I.
Qed.

(** The estimates the tracking loop carries stay numbers once they are. *)
Lemma emits_track_loop_floats inner duration cb Voc Isc fuel :
  forall run_time l,
  emits any_call
    (fun l' => (is_float (l_Impp l) -> is_float (l_Impp l')) /\
               (is_float (l_Vmpp l) -> is_float (l_Vmpp l')))
    (track_loop fuel inner duration cb Voc Isc run_time l).
Proof.
  induction fuel as [|fuel IH]; intros run_time l; simpl;
    destruct (run_time <? duration);
    try (apply emits_ret; auto); try apply emits_raise.
  eapply emits_bind; [apply emits_exploration_scan | intros [[[dV q] Impp] Vmpp] _].
  eapply emits_bind.
  { apply (emits_weaken any_call any_call
             (fun r => is_float (l_Impp (snd r)) /\ is_float (l_Vmpp (snd r))) _
             (dwell_phase duration cb (dV, q, Impp, Vmpp)));
      [auto | intros a Ha; exact Ha |].
    unfold dwell_phase.
    eapply emits_bind; [apply emits_elapsed | intros rt _].
    destruct (duration - rt <=? lit 0); [apply emits_ret; simpl; auto|].
    eapply emits_bind; [apply emits_setOutput; exact I | intros _ _].
    eapply emits_bind; [apply emits_getattr | intros dw _].
    eapply emits_bind; [apply emits_as_float | intros dwell_time _].
    eapply emits_bind; [destruct cb; apply emits_measureUntil; exact I | intros dq _].
    eapply emits_bind; [apply emits_index_last | intros m _].
    eapply emits_bind; [apply emits_elapsed | intros rt' _].
    apply emits_ret. simpl. auto. }
  intros [[|rt] l'] [Hi Hv]; simpl in Hi, Hv.
  - apply emits_ret. auto.
  - eapply emits_weaken; [| |apply IH]; [auto|].
    intros l'' [Hi' Hv']. auto.
Qed.

Lemma emits_track_loop inner duration cb Voc Isc fuel run_time l :
  emits any_call anything
    (track_loop fuel inner duration cb Voc Isc run_time l).
Proof.
  eapply emits_weaken; [| |apply emits_track_loop_floats];
    [auto | intros; exact I].
Qed.

Lemma emits_really_dumb_tracker duration cb fuel :
  emits any_call anything (really_dumb_tracker duration cb fuel).
Proof.
  unfold really_dumb_tracker.
  eapply emits_bind; [apply emits_getattr | intros Voc _].
  eapply emits_bind; [apply emits_as_float | intros voc _].
  eapply emits_bind; [apply emits_getattr | intros Impp _].
  eapply emits_bind; [apply emits_getattr | intros Vmpp _].
  eapply emits_bind; [apply emits_getattr | intros Isc _].
  eapply emits_bind; [apply emits_elapsed | intros rt _].
  eapply emits_bind; [apply emits_track_loop | intros l _].
  eapply emits_bind; [apply emits_setattr | intros _ _].
  eapply emits_bind; [apply emits_setattr | intros _ _].
  apply emits_ret. exact I.
Qed.

(** After the initial acquisition, [launch_tracker] only adds calls. *)
Lemma launch_tracker_after_acquisition duration cb NPLC fuel (s : state) voc r s1 :
  lookup_attr (attrs s) "Voc" = Some (PFloat voc) ->
  initial_acquisition duration NPLC s = (r, s1) ->
  exists more,
    trace (snd (launch_tracker duration cb NPLC fuel s)) = trace s1 ++ more /\
    (forall e, r = Raise e ->
       launch_tracker duration cb NPLC fuel s = (Raise e, s1)).
Proof.
  intros HVoc Hia. unfold launch_tracker.
  rewrite (bind_Ok _ _ _ _ _ (getattr_Some _ _ _ HVoc)). cbn [is_None].
  destruct r as [q0|e].
  - rewrite (bind_Ok _ _ _ _ _ Hia).
    assert (H : emits any_call anything
      (pptv <- really_dumb_tracker duration cb fuel ;;
       run_time <- elapsed ;; ret (q0 ++ pptv))).
    { eapply emits_bind; [apply emits_really_dumb_tracker | intros pptv _].
      eapply emits_bind; [apply emits_elapsed | intros rt _].
      apply emits_ret. exact I. }
    destruct (H s1) as (more & Ht & _). exists more.
    split; [exact Ht | discriminate].
  - rewrite (bind_Raise _ _ _ _ _ Hia). exists []. simpl.
    rewrite app_nil_r. split; [reflexivity|]. intros e' [= <-]. reflexivity.
Qed.

(** The setpoint given to [setupDC], lines 54-67. *)
Lemma launch_tracker_seeds duration cb NPLC fuel (s : state) voc vmpp :
  lookup_attr (attrs s) "Voc" = Some (PFloat voc) ->
  lookup_attr (attrs s) "Vmpp" = Some vmpp ->
  let run := launch_tracker duration cb NPLC fuel s in
  match lookup_attr (attrs s) "current_compliance" with
  | Some cc =>
      exists more,
        trace (snd run)
          = trace s ++ nplc_calls NPLC ++
            [ SetupDC true (provisional cc) (seeded voc vmpp) "a";
              Write ":arm:source immediate";
              MeasureUntil (initial_soak duration) None ] ++ more
  | None =>
      fst run = Raise (AttributeError "current_compliance") /\
      lookup_attr (attrs (snd run)) "Vmpp" = Some (seeded voc vmpp)
  end.
Proof.
  intros HVoc HVmpp run.
  destruct (lookup_attr (attrs s) "current_compliance") as [cc|] eqn:Hcc.
  - destruct (initial_acquisition_calls duration NPLC s voc cc vmpp HVoc Hcc HVmpp)
      as (r & s1 & Hia & Ht).
    destruct (launch_tracker_after_acquisition duration cb NPLC fuel
                s voc r s1 HVoc Hia) as (more & Hmore & _).
    exists more. unfold run. rewrite Hmore, Ht. unfold soak_calls.
    rewrite <- !app_assoc. reflexivity.
  - destruct (initial_acquisition_no_compliance duration NPLC s voc vmpp
                HVoc Hcc HVmpp) as (s1 & Hia & Ht & Hv).
    destruct (launch_tracker_after_acquisition duration cb NPLC fuel
                s voc _ s1 HVoc Hia) as (more & _ & Hraise).
    unfold run. rewrite (Hraise _ eq_refl). simpl. auto.
Qed.

(** X16. When [self.current_compliance] can be read, the first timed burst
    of a run with [Voc] known is the initial soak, of length
    [duration * 0.2] when [duration <= 10] holds and of length [10] when it
    does not. *)
Theorem launch_tracker_initial_soak duration cb NPLC fuel (s : state) voc cc :
  lookup_attr (attrs s) "Voc" = Some (PFloat voc) ->
  lookup_attr (attrs s) "current_compliance" = Some cc ->
  let run := launch_tracker duration cb NPLC fuel s in
  (exists before more,
     trace (snd run)
       = trace s ++ before ++ [MeasureUntil (initial_soak duration) None] ++ more /\
     Forall not_a_burst before) /\
  ((duration <=? lit 10) = true -> initial_soak duration = duration * lit 0.2) /\
  ((duration <=? lit 10) = false -> initial_soak duration = lit 10).
Proof.
  intros HVoc Hcc run.
  destruct (lookup_Vmpp_Some (attrs s)) as [vmpp HVmpp].
  split; [|split].
  - destruct (initial_acquisition_calls duration NPLC s voc cc vmpp HVoc Hcc HVmpp)
      as (r & s1 & Hia & Ht).
    destruct (launch_tracker_after_acquisition duration cb NPLC fuel
                s voc r s1 HVoc Hia) as (more & Hmore & _).
    exists (nplc_calls NPLC ++
            [SetupDC true (provisional cc) (seeded voc vmpp) "a";
             Write ":arm:source immediate"]), more.
    split.
    + unfold run. rewrite Hmore, Ht. unfold soak_calls.
      rewrite <- !app_assoc. reflexivity.
    + apply Forall_app. split.
      * unfold nplc_calls. destruct (negb _); repeat constructor.
      * repeat constructor.
  - intros H. unfold initial_soak. rewrite H. reflexivity.
  - intros H. unfold initial_soak. rewrite H. reflexivity.
Qed.

(** * Further properties *)

(** ** [which_max_power] on growing input *)

(** X1. [which_max_power] fails on the empty sequence only, and then with the
    [ValueError] of [numpy.argmax]; no index it computes is out of range. *)
Theorem which_max_power_raises_on_empty_only (vector : list Sample) :
  (which_max_power vector = Raise ValueError <-> vector = []) /\
  (forall e, which_max_power vector = Raise e -> e = ValueError).
Proof.
  destruct vector as [|x t].
  - split; [split; reflexivity|]. intros e [= <-]. reflexivity.
  - destruct (which_max_power_at x t) as (k & s & _ & _ & Hr).
    rewrite Hr. split; [split; discriminate | discriminate].
Qed.

(** X2. One more sample moves the maximum power point only if the maximum so
    far is not NaN and the test [power e <= Pmax] of the scan fails;
    otherwise the answer, index included, is the one on the shorter
    sequence: a later tie never displaces the earlier maximum. *)
Theorem which_max_power_one_more (vector : list Sample) (e : Sample) Pmax Vmpp Impp idx :
  which_max_power vector = Ok (Pmax, Vmpp, Impp, idx) ->
  which_max_power (vector ++ [e])
  = if isnan Pmax then Ok (Pmax, Vmpp, Impp, idx)
    else if negb (power e <=? Pmax)
    then Ok (power e, voltage e, current e, length vector)
    else Ok (Pmax, Vmpp, Impp, idx).
Proof.
  intros H. destruct vector as [|x t]; [discriminate|].
  destruct (which_max_power_at x t) as (k & s & Hk & Hs & Hw).
  rewrite Hw in H. injection H as <- <- <- <-.
  assert (Hv : map power (x :: t) !! k
               = Some (if isnan (power x) then power x
                       else best_from (power x) (map power t)))
    by (apply argmax_value; exact Hk).
  rewrite lookup_map, Hs in Hv. injection Hv as Hv.
  assert (Hk' : argmax (map power ((x :: t) ++ [e]))
                = Ok (if isnan (power s) then k
                      else if negb (power e <=? power s) then length (x :: t)
                      else k)).
  { rewrite map_app. cbn [map app argmax] in Hk |- *.
    injection Hk as Hk. destruct (isnan (power x)) eqn:Hx.
    - rewrite Hv, Hx. rewrite Hk. reflexivity.
    - rewrite argmax_from_app, <- (best_from_isnan _ _ Hx), <- Hv.
      rewrite length_map, Hk. cbn [length Nat.add].
      destruct (isnan (power s)); [reflexivity|].
      destruct (negb _); reflexivity. }
  assert (Hs' : ((x :: t) ++ [e]) !! k = Some s).
  { rewrite lookup_app_l; [exact Hs | eapply lookup_lt_Some; exact Hs]. }
  destruct (isnan (power s)).
  - apply which_max_power_index; assumption.
  - destruct (negb (power e <=? power s)).
    + apply which_max_power_index; [exact Hk'|].
      apply list_lookup_middle. reflexivity.
    + apply which_max_power_index; assumption.
Qed.

(** ** The calls of an exploration *)

(** X6. Whatever its outcome, an exploration sends the instrument nothing but
    setpoints each followed by one measurement, and reads one sample per
    setpoint.  When it completes, the first setpoint was the [Vmpp] it
    started from and the history has grown by one sample per setpoint. *)
Theorem exploration_scan_visits fuel Voc Isc (l : locals) (s : state) :
  let run := exploration_scan fuel Voc Isc l s in
  exists setpoints,
    trace (snd run) = trace s ++ visits setpoints /\
    n_measure (snd run) = (n_measure s + length setpoints)%nat /\
    forall dV' q' Impp' Vmpp',
      fst run = Ok (dV', q', Impp', Vmpp') ->
      length q' = (length (l_q l) + length setpoints)%nat /\
      exists vm, l_Vmpp l = PFloat vm /\ hd_error setpoints = Some vm.
Proof.
  intros run. destruct run as [r s'] eqn:E. simpl.
  exact (exploration_scan_calls fuel Voc Isc l s r s' E).
Qed.

(** ** What a run writes on the object *)

Section Keeps.

Variable R : state -> state -> Prop.
Hypothesis R_refl : forall s, R s s.
Hypothesis R_trans : forall s1 s2 s3, R s1 s2 -> R s2 s3 -> R s1 s3.
Hypothesis R_env : forall s s',
  attrs s' = attrs s -> measures s' = measures s -> R s s'.

Lemma keeps_ret {A} (a : A) : keeps R (ret a).
Proof. intros s. apply R_refl. Qed.

Lemma keeps_raise {A} e : keeps R (@raise A e).
Proof. intros s. apply R_refl. Qed.

Lemma keeps_bind {A B} (c : M A) (k : A -> M B) :
  keeps R c -> (forall a, keeps R (k a)) -> keeps R (bind c k).
Proof.
  intros Hc Hk s. specialize (Hc s). unfold bind.
  destruct (c s) as [[a|e] s1]; simpl in *; [|exact Hc].
  eapply R_trans; [exact Hc | apply Hk].
Qed.

Lemma keeps_reader {A} (c : M A) :
  (forall s, attrs (snd (c s)) = attrs s /\ measures (snd (c s)) = measures s) ->
  keeps R c.
Proof. intros H s. apply R_env; apply H. Qed.

Lemma keeps_getattr name : keeps R (getattr name).
Proof.
  apply keeps_reader. intros s. unfold getattr.
  destruct (lookup_attr _ _); split; reflexivity.
Qed.

Lemma keeps_as_float v : keeps R (as_float v).
Proof. destruct v; [apply keeps_raise | apply keeps_ret]. Qed.

Lemma keeps_fdiv a b : keeps R (fdiv a b).
Proof. unfold fdiv. destruct (b =? lit 0); [apply keeps_raise | apply keeps_ret]. Qed.

Lemma keeps_lift {A} (r : result A) : keeps R (lift r).
Proof. destruct r; [apply keeps_ret | apply keeps_raise]. Qed.

Lemma keeps_index_last {A} (l : list A) : keeps R (index_last l).
Proof. unfold index_last. destruct (last l); [apply keeps_ret | apply keeps_raise]. Qed.

Lemma keeps_time_time : keeps R time_time.
Proof. apply keeps_reader. split; reflexivity. Qed.

Lemma keeps_setOutput v : keeps R (sm_setOutput v).
Proof. apply keeps_reader. split; reflexivity. Qed.

Lemma keeps_measure : keeps R sm_measure.
Proof. apply keeps_reader. split; reflexivity. Qed.

Lemma keeps_measureUntil t cb : keeps R (sm_measureUntil t cb).
Proof. apply keeps_reader. split; reflexivity. Qed.

Lemma keeps_elapsed : keeps R elapsed.
Proof.
  unfold elapsed.
  apply keeps_bind; [apply keeps_time_time | intros now].
  apply keeps_bind; [apply keeps_getattr | intros t0].
  apply keeps_bind; [apply keeps_as_float | intros t].
  apply keeps_ret.
Qed.

Lemma keeps_angle i v Voc Isc : keeps R (angle i v Voc Isc).
Proof.
  unfold angle.
  apply keeps_bind; [apply keeps_fdiv | intros a].
  apply keeps_bind; [apply keeps_as_float | intros isc].
  apply keeps_bind; [apply keeps_fdiv | intros c].
  apply keeps_ret.
Qed.

Lemma keeps_explore_loop angleMpp Voc Isc fuel : forall w,
  keeps R (explore_loop fuel angleMpp Voc Isc w).
Proof.
  induction fuel as [|fuel IH]; intros w; simpl;
    destruct (highEdgeTouched w && lowEdgeTouched w);
    try apply keeps_ret; try apply keeps_raise.
  apply keeps_bind; [|exact IH]. unfold explore_step.
  apply keeps_bind; [apply keeps_setOutput | intros _].
  apply keeps_bind; [apply keeps_measure | intros m].
  apply keeps_bind; [apply keeps_angle | intros a].
  apply keeps_ret.
Qed.

Lemma keeps_exploration_scan fuel Voc Isc l :
  keeps R (exploration_scan fuel Voc Isc l).
Proof.
  unfold exploration_scan.
  apply keeps_bind; [apply keeps_as_float | intros im].
  apply keeps_bind; [apply keeps_as_float | intros vm].
  apply keeps_bind; [apply keeps_angle | intros a].
  apply keeps_bind; [apply keeps_explore_loop | intros w].
  apply keeps_bind; [apply keeps_lift | intros k].
  apply keeps_bind; [apply keeps_lift | intros x].
  apply keeps_bind; [apply keeps_lift | intros y].
  apply keeps_bind; [apply keeps_angle | intros a'].
  apply keeps_ret.
Qed.

Lemma keeps_dwell_phase duration cb e : keeps R (dwell_phase duration cb e).
Proof.
  destruct e as [[[dV q] Impp] Vmpp]. unfold dwell_phase.
  apply keeps_bind; [apply keeps_elapsed | intros rt].
  destruct (duration - rt <=? lit 0); [apply keeps_ret|].
  apply keeps_bind; [apply keeps_setOutput | intros _].
  apply keeps_bind; [apply keeps_getattr | intros dw].
  apply keeps_bind; [apply keeps_as_float | intros dwell_time].
  apply keeps_bind; [destruct cb; apply keeps_measureUntil | intros dq].
  apply keeps_bind; [apply keeps_index_last | intros m].
  apply keeps_bind; [apply keeps_elapsed | intros rt'].
  apply keeps_ret.
Qed.

Lemma keeps_track_loop inner duration cb Voc Isc fuel :
  forall run_time l,
  keeps R (track_loop fuel inner duration cb Voc Isc run_time l).
Proof.
  induction fuel as [|fuel IH]; intros run_time l; simpl;
    destruct (run_time <? duration);
    try apply keeps_ret; try apply keeps_raise.
  apply keeps_bind; [apply keeps_exploration_scan | intros e].
  apply keeps_bind; [apply keeps_dwell_phase | intros [[|rt] l']].
  - apply keeps_ret.
  - apply IH.
Qed.

End Keeps.

Lemma same_attrs_refl s : same_attrs s s.
Proof. reflexivity. Qed.

Lemma same_attrs_trans s1 s2 s3 :
  same_attrs s1 s2 -> same_attrs s2 s3 -> same_attrs s1 s3.
Proof. unfold same_attrs. congruence. Qed.

Lemma same_attrs_but_refl names s : same_attrs_but names s s.
Proof. intros name _. reflexivity. Qed.

Lemma same_attrs_but_trans names s1 s2 s3 :
  same_attrs_but names s1 s2 -> same_attrs_but names s2 s3 ->
  same_attrs_but names s1 s3.
Proof. intros H1 H2 name Hn. rewrite (H2 name Hn). apply H1, Hn. Qed.

Lemma same_attrs_but_attrs names s s' :
  attrs s' = attrs s -> measures s' = measures s -> same_attrs_but names s s'.
Proof. intros H _ name _. rewrite H. reflexivity. Qed.

Lemma keeps_setattr names name v :
  name ∈ names -> keeps (same_attrs_but names) (setattr name v).
Proof.
  intros Hin s name' Hn. simpl.
  apply lookup_attr_insert_ne. intros ->. contradiction.
Qed.

(** A computation that leaves the attributes alone, followed by another. *)
Lemma bind_reader_inv {A B} (c : M A) (k : A -> M B) s r s' :
  keeps same_attrs c ->
  bind c k s = (r, s') ->
  (exists e, r = Raise e /\ attrs s' = attrs s) \/
  (exists a s1, c s = (Ok a, s1) /\ attrs s1 = attrs s /\ k a s1 = (r, s')).
Proof.
  intros Hc. specialize (Hc s). unfold bind, same_attrs in *.
  destruct (c s) as [[a|e] s1]; simpl in Hc.
  - intros H. right. eauto.
  - intros [= <- <-]. left. eauto.
Qed.

Ltac reader lem :=
  match goal with
  | H : bind _ _ ?s = (_, _) |- _ =>
      let e := fresh "e" in
      let a := fresh "a" in
      let s1 := fresh "s" in
      let Hat := fresh "Hat" in
      let Hc := fresh "Hc" in
      apply bind_reader_inv in H;
      [ destruct H as [(e & -> & Hat) | (a & s1 & Hc & Hat & H)]
      | apply lem;
        first [ apply same_attrs_refl | apply same_attrs_trans
              | intros ? ? Hx ?; exact Hx ] ]
  end.

Lemma really_dumb_tracker_run duration cb fuel (s : state) r s' :
  really_dumb_tracker duration cb fuel s = (r, s') ->
  match r with
  | Ok _ =>
      exists Impp Vmpp,
        attrs s' = <["Vmpp" := Vmpp]> (<["Impp" := Impp]> (attrs s)) /\
        (forall v, lookup_attr (attrs s) "Impp" = Some v -> is_float v -> is_float Impp) /\
        (forall v, lookup_attr (attrs s) "Vmpp" = Some v -> is_float v -> is_float Vmpp)
  | Raise _ => attrs s' = attrs s
  end.
Proof.
  intros H. unfold really_dumb_tracker in H.
  reader keeps_getattr; [exact Hat|].
  reader keeps_as_float; [congruence|].
  reader keeps_getattr; [congruence|].
  reader keeps_getattr; [congruence|].
  reader keeps_getattr; [congruence|].
  reader keeps_elapsed; [congruence|].
  reader keeps_track_loop; [congruence|].
  cbv [bind setattr ret with_attrs] in H. cbn [attrs] in H.
  injection H as <- <-. cbn [attrs].
  exists (l_Impp a5), (l_Vmpp a5).
  assert (Hs : attrs s6 = attrs s) by congruence.
  rewrite Hs. split; [reflexivity|].
  pose proof (emits_track_loop_floats fuel duration cb a0 a3 fuel a4
                (mkLocals (a0 / lit 301) [] a1 a2) s5) as (more & _ & _ & Hpost).
  rewrite Hc5 in Hpost. simpl in Hpost. destruct Hpost as [Hi Hv].
  assert (E1 : lookup_attr (attrs s) "Impp" = Some a1).
  { unfold getattr in Hc1. replace (attrs s1) with (attrs s) in Hc1 by congruence.
    destruct (lookup_attr (attrs s) "Impp"); [|discriminate]. congruence. }
  assert (E2 : lookup_attr (attrs s) "Vmpp" = Some a2).
  { unfold getattr in Hc2. replace (attrs s2) with (attrs s) in Hc2 by congruence.
    destruct (lookup_attr (attrs s) "Vmpp"); [|discriminate]. congruence. }
  split; intros v Hv0 Hf; [apply Hi | apply Hv]; congruence.
Qed.

(** X7. [really_dumb_tracker] writes [self.Impp] and [self.Vmpp] on its last two
    lines and nothing else: a run that raises, in a scan or in a dwell,
    leaves every attribute as it found it, and a run that returns has
    changed those two only. *)
Theorem really_dumb_tracker_writes_last duration cb fuel (s : state) :
  let run := really_dumb_tracker duration cb fuel s in
  match fst run with
  | Ok _ =>
      exists Impp Vmpp,
        attrs (snd run) = <["Vmpp" := Vmpp]> (<["Impp" := Impp]> (attrs s))
  | Raise _ => attrs (snd run) = attrs s
  end.
Proof.
  intros run. destruct run as [r s'] eqn:E. simpl.
  pose proof (really_dumb_tracker_run _ _ _ _ _ _ E) as H.
  destruct r; [|exact H].
  destruct H as (i & v & H & _). eauto.
Qed.

Section Written.

Variable names : list string.

Ltac frame lem :=
  apply lem;
  first [ apply same_attrs_but_refl | apply same_attrs_but_trans
        | apply same_attrs_but_attrs ].

Ltac frame_bind :=
  apply keeps_bind; [apply same_attrs_but_trans | | intros ?].

Lemma keeps_really_dumb_tracker duration cb fuel :
  "Impp"%string ∈ names -> "Vmpp"%string ∈ names ->
  keeps (same_attrs_but names) (really_dumb_tracker duration cb fuel).
Proof.
  intros Hi Hv. unfold really_dumb_tracker.
  frame_bind; [frame keeps_getattr|].
  frame_bind; [frame keeps_as_float|].
  frame_bind; [frame keeps_getattr|].
  frame_bind; [frame keeps_getattr|].
  frame_bind; [frame keeps_getattr|].
  frame_bind; [frame keeps_elapsed|].
  frame_bind; [frame keeps_track_loop|].
  frame_bind; [apply keeps_setattr; exact Hi|].
  frame_bind; [apply keeps_setattr; exact Hv|].
  frame keeps_ret.
Qed.

Lemma keeps_call {A} (c : M A) :
  (forall s, attrs (snd (c s)) = attrs s /\ measures (snd (c s)) = measures s) ->
  keeps (same_attrs_but names) c.
Proof. intros H. apply keeps_reader; [apply same_attrs_but_attrs | exact H]. Qed.

Lemma keeps_initial_acquisition duration NPLC :
  "t0"%string ∈ names -> "Vmpp"%string ∈ names -> "Impp"%string ∈ names ->
  "current_compliance"%string ∈ names -> "Isc"%string ∈ names ->
  keeps (same_attrs_but names) (initial_acquisition duration NPLC).
Proof.
  intros Ht Hv Hi Hc Hs. unfold initial_acquisition.
  frame_bind; [frame keeps_time_time|].
  frame_bind; [apply keeps_setattr; exact Ht|].
  frame_bind; [frame keeps_getattr|].
  frame_bind.
  { destruct (is_None _); [|frame keeps_ret].
    frame_bind; [frame keeps_getattr|].
    frame_bind; [frame keeps_as_float|].
    apply keeps_setattr; exact Hv. }
  frame_bind; [frame keeps_getattr|].
  frame_bind; [destruct (is_None _); [frame keeps_ret | frame keeps_getattr]|].
  frame_bind; [destruct (negb _); [apply keeps_call; split; reflexivity | frame keeps_ret]|].
  frame_bind; [frame keeps_getattr|].
  frame_bind; [apply keeps_call; split; reflexivity|].
  frame_bind; [apply keeps_call; split; reflexivity|].
  frame_bind; [frame keeps_measureUntil|].
  frame_bind; [frame keeps_index_last|].
  frame_bind; [apply keeps_setattr; exact Hi|].
  frame_bind; [frame keeps_getattr|].
  frame_bind.
  { destruct (is_None _); [|frame keeps_ret].
    frame_bind; [frame keeps_getattr|].
    frame_bind; [frame keeps_as_float|].
    apply keeps_setattr; exact Hc. }
  frame_bind; [frame keeps_getattr|].
  frame_bind.
  { destruct (is_None _); [|frame keeps_ret].
    frame_bind; [frame keeps_getattr|].
    frame_bind; [frame keeps_as_float|].
    apply keeps_setattr; exact Hs. }
  frame keeps_ret.
Qed.

End Written.

(** X8. [launch_tracker] assigns no attribute other than [t0], [Vmpp], [Impp],
    [current_compliance] and [Isc]: [Voc], [dwell_time], the declared
    [currentCompliance] and any attribute of the caller's read the same
    after the run as before, whether it returns or raises. *)
Theorem launch_tracker_writes_only duration cb NPLC fuel (s : state) name :
  name ∉ written_by_launch ->
  lookup_attr (attrs (snd (launch_tracker duration cb NPLC fuel s))) name
  = lookup_attr (attrs s) name.
Proof.
  intros Hn.
  assert (H : keeps (same_attrs_but written_by_launch)
                (launch_tracker duration cb NPLC fuel)).
  { unfold launch_tracker.
    apply keeps_bind; [apply same_attrs_but_trans | | intros Voc].
    { apply keeps_getattr. apply same_attrs_but_attrs. }
    destruct (is_None Voc); [apply keeps_ret; apply same_attrs_but_refl|].
    apply keeps_bind; [apply same_attrs_but_trans | | intros q0].
    { apply keeps_initial_acquisition; unfold written_by_launch;
        repeat constructor. }
    apply keeps_bind; [apply same_attrs_but_trans | | intros pptv].
    { apply keeps_really_dumb_tracker; unfold written_by_launch;
        repeat constructor. }
    apply keeps_bind; [apply same_attrs_but_trans | | intros rt].
    { apply keeps_elapsed;
        [apply same_attrs_but_refl | apply same_attrs_but_trans
        | apply same_attrs_but_attrs]. }
    apply keeps_ret. apply same_attrs_but_refl. }
  apply (H s name Hn).
Qed.

(** ** The whole run *)

Lemma launch_tracker_tail duration cb NPLC fuel (s : state) voc q0 s1 :
  lookup_attr (attrs s) "Voc" = Some (PFloat voc) ->
  initial_acquisition duration NPLC s = (Ok q0, s1) ->
  exists r2 s2,
    really_dumb_tracker duration cb fuel s1 = (r2, s2) /\
    attrs (snd (launch_tracker duration cb NPLC fuel s)) = attrs s2 /\
    (forall h, fst (launch_tracker duration cb NPLC fuel s) = Ok h ->
       exists pptv, r2 = Ok pptv /\ h = q0 ++ pptv) /\
    (forall e, r2 = Raise e ->
       fst (launch_tracker duration cb NPLC fuel s) = Raise e).
Proof.
  intros HVoc Hia. unfold launch_tracker.
  rewrite (bind_Ok _ _ _ _ _ (getattr_Some _ _ _ HVoc)). cbn [is_None].
  rewrite (bind_Ok _ _ _ _ _ Hia). unfold bind.
  destruct (really_dumb_tracker duration cb fuel s1) as [[pptv|e] s2].
  - exists (Ok pptv), s2. split; [reflexivity|].
    pose proof (keeps_elapsed same_attrs same_attrs_refl same_attrs_trans
                  (fun _ _ H _ => H) s2) as Hel.
    unfold same_attrs in Hel.
    destruct (elapsed s2) as [[rt|e] s3]; simpl in *.
    + split; [exact Hel | split; [|discriminate]].
      intros h H. injection H as H. subst h. eauto.
    + split; [exact Hel | split; discriminate].
  - exists (Raise e), s2. simpl. split; [reflexivity|].
    split; [reflexivity | split; [discriminate|]].
    intros e' [= <-]. reflexivity.
Qed.

(** What [really_dumb_tracker] leaves of an attribute other than [Impp]
    and [Vmpp]. *)
Lemma really_dumb_tracker_other duration cb fuel (s : state) r s' name :
  really_dumb_tracker duration cb fuel s = (r, s') ->
  name <> "Impp"%string -> name <> "Vmpp"%string ->
  lookup_attr (attrs s') name = lookup_attr (attrs s) name.
Proof.
  intros Hrun Hi Hv.
  pose proof (really_dumb_tracker_run _ _ _ _ _ _ Hrun) as H.
  destruct r as [h|e]; [|rewrite H; reflexivity].
  destruct H as (i & v & -> & _).
  rewrite !lookup_attr_insert_ne by congruence. reflexivity.
Qed.

(** X9. When [self.current_compliance] exists and the soak returns samples, the
    soak runs under the compliance found, or under 0.04 A when it is
    [None], and the run then leaves [current_compliance] at [|2 * Impp|]
    and [Isc] at [1.1 * Impp] where they were [None], [Impp] being the
    current of the last soak sample.  Values already set are kept, and [t0]
    is the first clock reading.  This holds however the tracking that
    follows ends. *)
Theorem launch_tracker_commits duration cb NPLC fuel (s : state)
    voc cc isc m :
  lookup_attr (attrs s) "Voc" = Some (PFloat voc) ->
  lookup_attr (attrs s) "current_compliance" = Some cc ->
  lookup_attr (attrs s) "Isc" = Some isc ->
  last (bursts s (n_burst s)) = Some m ->
  let s' := snd (launch_tracker duration cb NPLC fuel s) in
  lookup_attr (attrs s') "current_compliance" = Some (committed_compliance cc m) /\
  lookup_attr (attrs s') "Isc" = Some (committed_Isc isc m) /\
  lookup_attr (attrs s') "t0" = Some (PFloat (clock s (n_clock s))) /\
  exists setPoint more,
    trace s' = trace s ++ soak_calls duration NPLC cc setPoint ++ more.
Proof.
  intros HVoc Hcc HIsc Hlast s'.
  destruct (lookup_Vmpp_Some (attrs s)) as [vmpp HVmpp].
  destruct (initial_acquisition_commits duration NPLC s voc cc vmpp isc m
              HVoc Hcc HVmpp HIsc Hlast)
    as (s1 & Hia & Ht0 & _ & _ & Hc1 & Hi1 & _).
  destruct (launch_tracker_tail duration cb NPLC fuel s voc _ s1 HVoc Hia)
    as (r2 & s2 & Hrdt & Hattrs & _).
  unfold s'. rewrite Hattrs.
  rewrite !(really_dumb_tracker_other _ _ _ _ _ _ _ Hrdt) by discriminate.
  repeat (split; [assumption|]).
  destruct (initial_acquisition_calls duration NPLC s voc cc vmpp HVoc Hcc HVmpp)
    as (r & s1' & Hia' & Htr).
  rewrite Hia in Hia'. injection Hia' as <- <-.
  destruct (launch_tracker_after_acquisition duration cb NPLC fuel
              s voc _ s1 HVoc Hia) as (more & Hmore & _).
  exists (seeded voc vmpp), more. rewrite Hmore, Htr.
  rewrite <- !app_assoc. reflexivity.
Qed.

(** X10. A soak that returns no sample stops the run at line 76 with
    [IndexError]: the instrument has been set up and asked for the burst,
    [Impp] is not assigned and the compliance is not committed. *)
Theorem launch_tracker_empty_soak duration cb NPLC fuel (s : state) voc cc :
  lookup_attr (attrs s) "Voc" = Some (PFloat voc) ->
  lookup_attr (attrs s) "current_compliance" = Some cc ->
  last (bursts s (n_burst s)) = None ->
  let run := launch_tracker duration cb NPLC fuel s in
  fst run = Raise IndexError /\
  (exists setPoint, trace (snd run) = trace s ++ soak_calls duration NPLC cc setPoint) /\
  lookup_attr (attrs (snd run)) "Impp" = lookup_attr (attrs s) "Impp" /\
  lookup_attr (attrs (snd run)) "current_compliance" = Some cc.
Proof.
  intros HVoc Hcc Hlast run.
  destruct (lookup_Vmpp_Some (attrs s)) as [vmpp HVmpp].
  destruct (initial_acquisition_empty_soak duration NPLC s voc cc vmpp
              HVoc Hcc HVmpp Hlast) as (s1 & Hia & Ht & Hi & Hc).
  destruct (launch_tracker_after_acquisition duration cb NPLC fuel
              s voc _ s1 HVoc Hia) as (more & _ & Hraise).
  unfold run. rewrite (Hraise _ eq_refl). simpl. eauto.
Qed.

(** X11. The history [launch_tracker] returns is empty when [Voc] is [None];
    otherwise it is the burst of the soak, which is not empty, in the
    order the instrument gave it, followed by the history that
    [really_dumb_tracker] returns when run from the state the initial
    acquisition has left. *)
Theorem launch_tracker_history duration cb NPLC fuel (s : state) h :
  fst (launch_tracker duration cb NPLC fuel s) = Ok h ->
  (lookup_attr (attrs s) "Voc" = Some PNone /\ h = []) \/
  (exists s1 pptv s2,
     initial_acquisition duration NPLC s = (Ok (bursts s (n_burst s)), s1) /\
     really_dumb_tracker duration cb fuel s1 = (Ok pptv, s2) /\
     h = bursts s (n_burst s) ++ pptv /\
     bursts s (n_burst s) <> []).
Proof.
  intros Hrun.
  destruct (lookup_declared (attrs s) "Voc" PNone eq_refl) as [[|voc] HVoc].
  - left. split; [exact HVoc|].
    unfold launch_tracker in Hrun.
    rewrite (bind_Ok _ _ _ _ _ (getattr_Some _ _ _ HVoc)) in Hrun.
    simpl in Hrun. congruence.
  - right.
    destruct (lookup_Vmpp_Some (attrs s)) as [vmpp HVmpp].
    destruct (lookup_declared (attrs s) "Isc" PNone eq_refl) as [isc HIsc].
    destruct (lookup_attr (attrs s) "current_compliance") as [cc|] eqn:Hcc.
    + destruct (last (bursts s (n_burst s))) as [m|] eqn:Hlast.
      * destruct (initial_acquisition_commits duration NPLC s voc cc vmpp isc m
                    HVoc Hcc HVmpp HIsc Hlast) as (s1 & Hia & _).
        destruct (launch_tracker_tail duration cb NPLC fuel s voc _ s1
                    HVoc Hia) as (r2 & s2 & Hrdt & _ & Hok & _).
        destruct (Hok h Hrun) as (pptv & -> & ->).
        exists s1, pptv, s2. repeat (split; [assumption || reflexivity|]).
        intros E. rewrite E in Hlast. discriminate.
      * destruct (initial_acquisition_empty_soak duration NPLC s voc cc vmpp
                    HVoc Hcc HVmpp Hlast) as (s1 & Hia & _).
        destruct (launch_tracker_after_acquisition duration cb NPLC fuel
                    s voc _ s1 HVoc Hia) as (more & _ & Hraise).
        rewrite (Hraise _ eq_refl) in Hrun. discriminate.
    + destruct (initial_acquisition_no_compliance duration NPLC s voc vmpp
                  HVoc Hcc HVmpp) as (s1 & Hia & _).
      destruct (launch_tracker_after_acquisition duration cb NPLC fuel
                  s voc _ s1 HVoc Hia) as (more & _ & Hraise).
      rewrite (Hraise _ eq_refl) in Hrun. discriminate.
Qed.

(** X12. A run that returns with [Voc] known leaves [Vmpp], [Impp], [Isc],
    [current_compliance] and [t0] all set to numbers: a second run on the
    same object takes none of the defaults of lines 54-58 and 77-81. *)
Theorem launch_tracker_leaves_estimates duration cb NPLC fuel (s : state) h voc :
  fst (launch_tracker duration cb NPLC fuel s) = Ok h ->
  lookup_attr (attrs s) "Voc" = Some (PFloat voc) ->
  let s' := snd (launch_tracker duration cb NPLC fuel s) in
  forall name,
    In name ["Vmpp"; "Impp"; "Isc"; "current_compliance"; "t0"; "Voc"]%string ->
    exists x, lookup_attr (attrs s') name = Some (PFloat x).
Proof.
  intros Hrun HVoc s'.
  destruct (lookup_Vmpp_Some (attrs s)) as [vmpp HVmpp].
  destruct (lookup_declared (attrs s) "Isc" PNone eq_refl) as [isc HIsc].
  destruct (lookup_attr (attrs s) "current_compliance") as [cc|] eqn:Hcc.
  2:{ destruct (initial_acquisition_no_compliance duration NPLC s voc vmpp
                  HVoc Hcc HVmpp) as (s1 & Hia & _).
      destruct (launch_tracker_after_acquisition duration cb NPLC fuel
                  s voc _ s1 HVoc Hia) as (more & _ & Hraise).
      rewrite (Hraise _ eq_refl) in Hrun. discriminate. }
  destruct (last (bursts s (n_burst s))) as [m|] eqn:Hlast.
  2:{ destruct (initial_acquisition_empty_soak duration NPLC s voc cc vmpp
                  HVoc Hcc HVmpp Hlast) as (s1 & Hia & _).
      destruct (launch_tracker_after_acquisition duration cb NPLC fuel
                  s voc _ s1 HVoc Hia) as (more & _ & Hraise).
      rewrite (Hraise _ eq_refl) in Hrun. discriminate. }
  destruct (initial_acquisition_commits duration NPLC s voc cc vmpp isc m
              HVoc Hcc HVmpp HIsc Hlast)
    as (s1 & Hia & Ht0 & Hv1 & Hi1 & Hc1 & Hs1 & _).
  destruct (launch_tracker_tail duration cb NPLC fuel s voc _ s1 HVoc Hia)
    as (r2 & s2 & Hrdt & Hattrs & Hok & _).
  destruct (Hok h Hrun) as (pptv & -> & _).
  assert (HVoc1 : lookup_attr (attrs s1) "Voc" = Some (PFloat voc)).
  { pose proof (keeps_initial_acquisition written_by_launch duration NPLC) as K.
    rewrite <- HVoc. unfold written_by_launch in K.
    pose proof (K ltac:(repeat constructor) ltac:(repeat constructor)
                  ltac:(repeat constructor) ltac:(repeat constructor)
                  ltac:(repeat constructor) s "Voc"%string) as K'.
    rewrite Hia in K'. apply K'.
    rewrite !not_elem_of_cons. repeat (split; [discriminate|]).
    apply not_elem_of_nil. }
  pose proof (really_dumb_tracker_run _ _ _ _ _ _ Hrdt) as (i & v & Ha2 & Hfi & Hfv).
  assert (Hi : is_float i) by (apply (Hfi _ Hi1); exact I).
  assert (Hv : is_float v).
  { apply (Hfv _ Hv1). unfold seeded. destruct vmpp; exact I. }
  intros name Hin. unfold s'. rewrite Hattrs, Ha2.
  simpl in Hin.
  destruct Hin as [<-|[<-|[<-|[<-|[<-|[<-|[]]]]]]];
    repeat (rewrite lookup_attr_insert || rewrite lookup_attr_insert_ne by done).
  - destruct v; [contradiction | eauto].
  - destruct i; [contradiction | eauto].
  - rewrite Hs1. unfold committed_Isc. destruct isc; simpl; eauto.
  - rewrite Hc1. unfold committed_compliance. destruct cc; simpl; eauto.
  - rewrite Ht0. eauto.
  - rewrite HVoc1. eauto.
Qed.

(** ** A tracker entered after its time *)

(** X13. Entered when the test [run_time < duration] of line 116 fails at once,
    [duration] seconds having passed since [t0], [really_dumb_tracker]
    makes no call on the instrument and returns an empty history; every
    attribute reads as before. *)
Theorem really_dumb_tracker_expired duration cb fuel (s : state) voc t0 :
  lookup_attr (attrs s) "Voc" = Some (PFloat voc) ->
  lookup_attr (attrs s) "t0" = Some (PFloat t0) ->
  (clock s (n_clock s) - t0 <? duration) = false ->
  let run := really_dumb_tracker duration cb fuel s in
  fst run = Ok [] /\
  trace (snd run) = trace s /\
  forall name,
    lookup_attr (attrs (snd run)) name = lookup_attr (attrs s) name.
Proof.
  intros HVoc Ht0 Hlate run.
  destruct (lookup_declared (attrs s) "Impp" PNone eq_refl) as [i Hi].
  destruct (lookup_Vmpp_Some (attrs s)) as [v Hv].
  destruct (lookup_declared (attrs s) "Isc" PNone eq_refl) as [isc HIsc].
  assert (E : run =
    (Ok [], with_attrs (<["Vmpp" := v]> (<["Impp" := i]> (attrs s)))
              (mkState (attrs s) (trace s) (measures s) (n_measure s) (bursts s)
                 (n_burst s) (clock s) (S (n_clock s))))).
  { unfold run, really_dumb_tracker.
    repeat (progress (run_monad; rewrite ?HVoc, ?Ht0, ?Hi, ?Hv, ?HIsc)).
    destruct fuel; cbn [track_loop]; rewrite Hlate; reflexivity. }
  rewrite E. cbn [fst snd with_attrs attrs trace].
  split; [reflexivity | split; [reflexivity|]].
  intros name.
  destruct (decide (name = "Vmpp"%string)) as [->|Hn1];
    [rewrite lookup_attr_insert; auto|].
  rewrite lookup_attr_insert_ne by auto.
  destruct (decide (name = "Impp"%string)) as [->|Hn2];
    [rewrite lookup_attr_insert; auto|].
  rewrite lookup_attr_insert_ne by auto. reflexivity.
Qed.

End Model.

(** * The doubles of the code *)

(** ** Comparisons of doubles

    [PrimFloat.leb], [PrimFloat.ltb] and [PrimFloat.eqb] are the IEEE 754
    comparisons: their specification [SFcompare] orders the doubles other
    than NaN, with [-0 = +0], and puts NaN in no relation to anything. *)

Lemma SFcompare_antisym a b :
  SFcompare b a = option_map CompOpp (SFcompare a b).
Proof.
  destruct a as [[]|[]| |[] ma ea], b as [[]|[]| |[] mb eb]; simpl;
    try reflexivity;
    rewrite (Z.compare_antisym ea eb);
    destruct (ea ?= eb)%Z; simpl; try reflexivity;
    pose proof (Pos.compare_cont_antisym ma mb Eq) as H; simpl in H;
    rewrite <- H, ?CompOpp_involutive; reflexivity.
Qed.

Lemma SFcompare_refl a : a <> S754_nan -> SFcompare a a = Some Eq.
Proof.
  destruct a as [[]|[]| |[] m e]; simpl; try reflexivity; try congruence;
    intros _; rewrite Z.compare_refl, Pos.compare_cont_refl; reflexivity.
Qed.

Lemma SFcompare_nan_l a : SFcompare S754_nan a = None.
Proof. destruct a; reflexivity. Qed.

Lemma SFcompare_Some a b :
  a <> S754_nan -> b <> S754_nan -> exists c, SFcompare a b = Some c.
Proof.
  destruct a as [[]|[]| |[] ma ea], b as [[]|[]| |[] mb eb]; simpl;
    try congruence; eauto.
Qed.

Lemma SFleb_trans a b c :
  SFleb a b = true -> SFleb b c = true -> SFleb a c = true.
Proof.
  unfold SFleb.
  destruct a as [[]|[]| |[] ma ea], b as [[]|[]| |[] mb eb],
           c as [[]|[]| |[] mc ec]; simpl;
    try reflexivity; try discriminate;
    change (Pos.compare_cont Eq) with Pos.compare;
    destruct (Z.compare_spec ea eb), (Z.compare_spec eb ec), (Z.compare_spec ea ec);
    subst; try lia; simpl; try reflexivity; try discriminate;
    destruct (Pos.compare_spec ma mb), (Pos.compare_spec mb mc),
             (Pos.compare_spec ma mc);
    subst; try lia; simpl; try reflexivity; try discriminate.
Qed.

Lemma is_nan_spec x : PrimFloat.is_nan x = true <-> Prim2SF x = S754_nan.
Proof.
  unfold PrimFloat.is_nan. rewrite FloatAxioms.eqb_spec. unfold SFeqb. split.
  - intros H. destruct (Prim2SF x) eqn:E; try reflexivity;
      rewrite SFcompare_refl in H by discriminate; discriminate.
  - intros ->. reflexivity.
Qed.

Lemma is_nan_false x : PrimFloat.is_nan x = false -> Prim2SF x <> S754_nan.
Proof.
  intros H E. apply is_nan_spec in E. congruence.
Qed.

Lemma leb_total x y :
  PrimFloat.is_nan x = false -> PrimFloat.is_nan y = false ->
  PrimFloat.leb x y = true \/ PrimFloat.leb y x = true.
Proof.
  intros Hx Hy. apply is_nan_false in Hx, Hy.
  rewrite !FloatAxioms.leb_spec. unfold SFleb.
  rewrite (SFcompare_antisym (Prim2SF x) (Prim2SF y)).
  destruct (SFcompare_Some _ _ Hx Hy) as [[| |] ->]; simpl; auto.
Qed.

Lemma leb_trans x y z :
  PrimFloat.leb x y = true -> PrimFloat.leb y z = true ->
  PrimFloat.leb x z = true.
Proof. rewrite !FloatAxioms.leb_spec. apply SFleb_trans. Qed.

Lemma leb_nan x y : PrimFloat.is_nan x = true -> PrimFloat.leb x y = false.
Proof.
  intros H. apply is_nan_spec in H.
  rewrite FloatAxioms.leb_spec, H. unfold SFleb. rewrite SFcompare_nan_l. reflexivity.
Qed.

(** Between doubles other than NaN, [x < m] is the failure of [m <= x]. *)
Lemma ltb_not_leb x m :
  PrimFloat.is_nan x = false -> PrimFloat.is_nan m = false ->
  PrimFloat.leb m x = false -> PrimFloat.ltb x m = true.
Proof.
  intros Hx Hm. apply is_nan_false in Hx, Hm.
  rewrite FloatAxioms.leb_spec, FloatAxioms.ltb_spec. unfold SFleb, SFltb.
  rewrite (SFcompare_antisym (Prim2SF m) (Prim2SF x)).
  destruct (SFcompare_Some _ _ Hm Hx) as [[| |] ->]; simpl;
    first [reflexivity | discriminate].
Qed.

(** ** [which_max_power] on doubles *)

(** C1, as the code has it.  On a non-empty sequence [which_max_power]
    returns [(Pmax, Vmpp, Impp, index)] where [Pmax] is the power
    [v*i*-1] of the sample at [index] and [Vmpp], [Impp] are its voltage
    and current.  When no power is NaN, [index] is the first position whose
    power is the largest of the sequence.  When some power is NaN, [index]
    is the position of the first of them.  The function reads nothing but
    its argument. *)
Theorem which_max_power_first_max (vector : list (@Sample float)) :
  vector <> [] ->
  exists Pmax Vmpp Impp idx s,
    which_max_power vector = Ok (Pmax, Vmpp, Impp, idx) /\
    vector !! idx = Some s /\
    Vmpp = voltage s /\ Impp = current s /\ Pmax = power s /\
    (Forall (fun e => isnan (power e) = false) vector ->
     (forall j e, vector !! j = Some e -> (power e <=? Pmax)%py = true) /\
     (forall j e, vector !! j = Some e -> (j < idx)%nat ->
        (power e <? Pmax)%py = true)) /\
    (Exists (fun e => isnan (power e) = true) vector ->
     isnan Pmax = true /\
     forall j e, vector !! j = Some e -> (j < idx)%nat ->
       isnan (power e) = false).
Proof.
  intros Hne. destruct vector as [|x t]; [congruence|].
  destruct (which_max_power_at x t) as (k & s & Hk & Hs & Hw).
  exists (power s), (voltage s), (current s), k, s.
  split; [exact Hw|]. split; [exact Hs|]. do 3 (split; [reflexivity|]).
  split.
  - intros Hall.
    assert (Hp : Forall (fun v => isnan v = false) (map power (x :: t))).
    { apply Forall_forall. intros v Hv.
      apply list_elem_of_In, in_map_iff in Hv. destruct Hv as (e & <- & He).
      rewrite Forall_forall in Hall. apply Hall, list_elem_of_In, He. }
    destruct (argmax_first_max (arith:=binary64) leb_total leb_trans (map power (x :: t)) k Hp Hk)
      as (m & Hm & Hub & Hfirst).
    rewrite lookup_map, Hs in Hm. injection Hm as <-.
    rewrite Forall_forall in Hall.
    split.
    + intros j e Hj. apply (Hub j). rewrite lookup_map, Hj. reflexivity.
    + intros j e Hj Hlt. apply ltb_not_leb.
      * apply Hall. eapply list_elem_of_lookup_2. exact Hj.
      * apply Hall. eapply list_elem_of_lookup_2. exact Hs.
      * apply (Hfirst j); [|exact Hlt]. rewrite lookup_map, Hj. reflexivity.
  - intros Hex.
    assert (Hp : Exists (fun v => isnan v = true) (map power (x :: t))).
    { apply Exists_exists in Hex. destruct Hex as (e & He & Hn).
      apply Exists_exists. exists (power e). split; [|exact Hn].
      apply list_elem_of_In, in_map, list_elem_of_In, He. }
    destruct (argmax_first_nan (arith:=binary64) leb_nan (map power (x :: t)) k Hp Hk)
      as (m & Hm & Hnan & Hfirst).
    rewrite lookup_map, Hs in Hm. injection Hm as <-.
    split; [exact Hnan|].
    intros j e Hj Hlt. apply (Hfirst j); [|exact Hlt].
    rewrite lookup_map, Hj. reflexivity.
Qed.

(** C1 as the specification words it fails on a sequence with a NaN: behind
    a reading whose voltage is NaN, [which_max_power] answers that reading
    and a NaN for [Pmax], which is not the maximum of the powers: the
    second sample has a power that is not below it. *)
Lemma which_max_power_nan_first :
  spoiled PrimFloat.nan <> [] /\
  which_max_power (spoiled PrimFloat.nan)
    = Ok (PrimFloat.nan, PrimFloat.nan, lit (-0.036), 0%nat) /\
  exists e, spoiled PrimFloat.nan !! 1%nat = Some e /\
    (power e <=? PrimFloat.nan)%py = false /\
    (lit 0 <? power e)%py = true.
Proof.
  split; [discriminate|]. split; [vm_compute; reflexivity|].
  eexists. split; [reflexivity|]. split; vm_compute; reflexivity.
Qed.

(** ** A scan that never returns *)


(** ** Setpoints and estimates outside the range *)


(** ** The soak that is not reached *)

#[local] Set Warnings "-inexact-float".

(** C7.  On an object on which only [Voc] has been set, the scenario of the
    specification, a run of [duration = 4] asks the instrument for no
    burst at all: it stops at line 57, where [self.current_compliance] is
    read, before the soak of [4 * 0.2 = 0.8] seconds that lines 69-75
    would have asked for. *)
Theorem launch_tracker_soak_not_reached (atan_deg : float -> float) cb NPLC fuel :
  let run := launch_tracker atan_deg (lit 4) cb NPLC fuel Voc_only_tracker in
  fst run = Raise (AttributeError "current_compliance") /\
  trace (snd run) = [] /\
  initial_soak (F:=float) (lit 4) = 0.8%float.
Proof. repeat split; vm_compute; reflexivity. Qed.

(** ** The seed of [Vmpp] *)

(** C9. In a run with [Voc] known, the setpoint given to [setupDC] before
    the soak is [0.7 * Voc] when [Vmpp] was [None] and the [Vmpp] found
    otherwise; [Voc = 0.6] gives [0.42], in exact arithmetic and on
    doubles.  (A run that cannot read [self.current_compliance] stops after
    the seeding, with [self.Vmpp] at that value.) *)
Theorem launch_tracker_seeds_Vmpp {F : Type} {arith : PyFloat F} (atan_deg : F -> F)
    duration cb NPLC fuel (s : state) voc vmpp :
  lookup_attr (attrs s) "Voc" = Some (PFloat voc) ->
  lookup_attr (attrs s) "Vmpp" = Some vmpp ->
  let run := launch_tracker atan_deg duration cb NPLC fuel s in
  let setPoint :=
    match vmpp with
    | PNone => PFloat (lit 0.7 * voc)%py
    | PFloat v => PFloat v
    end in
  match lookup_attr (attrs s) "current_compliance" with
  | Some cc =>
      exists more,
        trace (snd run)
          = trace s ++ nplc_calls NPLC ++
            [ SetupDC true (provisional cc) setPoint "a";
              Write ":arm:source immediate";
              MeasureUntil (initial_soak duration) None ] ++ more
  | None =>
      fst run = Raise (AttributeError "current_compliance") /\
      lookup_attr (attrs (snd run)) "Vmpp" = Some setPoint
  end /\
  (0.7 * 0.6 == 0.42)%Q /\
  seeded (F:=float) 0.6%float PNone = PFloat 0.42%float.
Proof.
  intros HVoc HVmpp run setPoint.
  assert (Hseed : seeded voc vmpp = setPoint) by (destruct vmpp; reflexivity).
  split; [|split; reflexivity].
  pose proof (launch_tracker_seeds atan_deg duration cb NPLC fuel s voc vmpp
                HVoc HVmpp) as H.
  cbv zeta in H. rewrite Hseed in H. exact H.
Qed.

(** * Exact arithmetic

    The theorems of this part are about the tracker run on the instance
    [exact], where no operation rounds. *)

Open Scope Q_scope.

Lemma Qltb_lt x y : Qltb x y = true <-> x < y.
Proof.
  unfold Qltb. rewrite negb_true_iff.
  destruct (Qle_bool y x) eqn:E.
  - apply Qle_bool_iff in E. split; [discriminate | intros H; lra].
  - split; [intros _ | reflexivity].
    destruct (Qlt_le_dec x y) as [H|H]; [exact H |].
    apply Qle_bool_iff in H. congruence.
Qed.

Lemma Qltb_ge x y : Qltb x y = false <-> y <= x.
Proof.
  unfold Qltb. rewrite negb_false_iff. apply Qle_bool_iff.
Qed.

(** The operations of [exact], written out. *)
Ltac exact_arith :=
  cbn [lit fadd fsub fmul fquot fneg fabs fle flt feq isnan exact] in *.

Ltac no_if t :=
  lazymatch t with
  | context [if _ then _ else _] => fail
  | _ => idtac
  end.

(** Case analysis on the comparisons of a goal, innermost first. *)
Ltac Qcmp_case :=
  match goal with
  | |- context [Qltb ?a ?b] =>
      no_if a; no_if b;
      let E := fresh "E" in
      destruct (Qltb a b) eqn:E;
      [apply Qltb_lt in E | apply Qltb_ge in E]
  | |- context [Qle_bool ?a ?b] =>
      no_if a; no_if b;
      let E := fresh "E" in
      destruct (Qle_bool a b) eqn:E;
      [apply Qle_bool_iff in E
      | assert (b < a) by (apply Qltb_lt; unfold Qltb; rewrite E; reflexivity);
        clear E]
  end.

Ltac Qcmp_cases :=
  repeat (Qcmp_case;
          cbn [v_set dV highEdgeTouched lowEdgeTouched q i_explore v_explore
               andb orb negb set_walk turn_high turn_low] in *;
          exact_arith;
          try (exfalso; lra)).

Ltac open_walk w :=
  destruct w as [? ? ? ? ? ? ?];
  unfold walk_on, angle_edges, boundary_edges, dAngleMax in *;
  cbn [v_set dV highEdgeTouched lowEdgeTouched q i_explore v_explore
       set_walk turn_high turn_low fed] in *;
  exact_arith.

(** ** One pass of the walk *)

(** X3. An edge once touched stays touched for the rest of the scan, each angle
    test touches its edge, and a pass changes the step in sign only. *)
Theorem walk_on_flags (Voc dAngle : Q) (w : @scan Q) :
  let w' := walk_on Voc dAngle w in
  (highEdgeTouched w = true -> highEdgeTouched w' = true) /\
  (lowEdgeTouched w = true -> lowEdgeTouched w' = true) /\
  (dAngleMax < dAngle -> highEdgeTouched w' = true) /\
  (dAngle < - dAngleMax -> lowEdgeTouched w' = true) /\
  (dV w' == dV w \/ dV w' == - dV w).
Proof.
  open_walk w.
  Qcmp_cases;
    (split; [auto | split; [auto | split; [intros; first [reflexivity | lra] |
       split; [intros; first [reflexivity | lra] |
       first [left; lra | right; lra]]]]]).
Qed.

(** X5. Walking down, the pass that reaches [0] touches the low edge only: the
    high edge keeps its state, the step turns upwards and the next setpoint
    is back between [0] and [Voc]. *)
Theorem walk_on_reaching_zero (Voc dAngle : Q) (w : @scan Q) :
  dV w < 0 -> - dV w <= Voc -> 0 <= v_set w <= Voc ->
  - dAngleMax <= dAngle <= dAngleMax ->
  v_set w + dV w <= 0 ->
  let w' := walk_on Voc dAngle w in
  lowEdgeTouched w' = true /\ highEdgeTouched w' = highEdgeTouched w /\
  dV w' == - dV w /\ 0 <= v_set w' <= Voc.
Proof.
  intros Hd HdV Hv Ha Hreach. open_walk w.
  Qcmp_cases; repeat split; try reflexivity; lra.
Qed.

(** ** The dwell *)

Ltac run_monad :=
  cbv [elapsed bind ret raise time_time getattr setattr as_float sm_setOutput
       sm_measureUntil sm_setupDC sm_write sm_setNPLC emit with_attrs
       index_last lift];
  cbn [attrs trace measures n_measure bursts n_burst clock n_clock fst snd];
  exact_arith.

(** Lines 201-204 take the smaller of the two durations. *)
Lemma dwell_is_min dwell_time time_left :
  (if Qltb time_left dwell_time then time_left else dwell_time)
  = Qmin dwell_time time_left.
Proof.
  unfold Qmin, GenericMinMax.gmin.
  destruct (Qltb time_left dwell_time) eqn:E.
  - apply Qltb_lt in E. apply Qgt_alt in E. rewrite E. reflexivity.
  - apply Qltb_ge in E.
    destruct (dwell_time ?= time_left) eqn:C; try reflexivity.
    apply Qgt_alt in C. lra.
Qed.


(** * The theorems at work

    Each theorem with a hypothesis is applied here to one of the scenarios,
    on doubles unless it is about exact arithmetic. *)

Lemma which_max_power_first_max_witness :
  buffer3 (F:=float) <> [] /\
  exists Pmax Vmpp Impp idx s,
    which_max_power (F:=float) buffer3 = Ok (Pmax, Vmpp, Impp, idx) /\
    buffer3 !! idx = Some s /\
    Vmpp = voltage s /\ Impp = current s /\ Pmax = power s /\
    (Forall (fun e => isnan (power e) = false) (buffer3 (F:=float)) ->
     (forall j e, buffer3 !! j = Some e -> fle (power e) Pmax = true) /\
     (forall j e, buffer3 !! j = Some e -> (j < idx)%nat ->
        flt (power e) Pmax = true)) /\
    (Exists (fun e => isnan (power e) = true) (buffer3 (F:=float)) ->
     isnan Pmax = true /\
     forall j e, buffer3 !! j = Some e -> (j < idx)%nat ->
       isnan (power e) = false).
Proof.
  split; [discriminate | apply (which_max_power_first_max buffer3); discriminate].
Defined.

Example which_max_power_buffer3 :
  which_max_power (F:=float) buffer3
  = Ok (fmul (fmul (lit 0.42) (lit (-0.036))) (lit (-1)),
        lit 0.42, lit (-0.036), 1%nat).
Proof. vm_compute. reflexivity. Qed.



Lemma launch_tracker_Voc_None_witness :
  lookup_attr (attrs (F:=float) unset_tracker) "Voc" = Some PNone /\
  launch_tracker (F:=float) atan_deg_ref (lit 30) None (lit (-1)) 10 unset_tracker
  = (Ok [], unset_tracker).
Proof.
  split; [reflexivity | apply (launch_tracker_Voc_None atan_deg_ref); reflexivity].
Defined.



#[local] Set Warnings "-inexact-float".

Lemma launch_tracker_seeds_Vmpp_witness :
  lookup_attr (attrs (F:=float) prepared_tracker) "Voc" = Some (PFloat (lit 0.6)) /\
  lookup_attr (attrs (F:=float) prepared_tracker) "Vmpp" = Some PNone /\
  let run := launch_tracker (F:=float) atan_deg_ref (lit 30) None (lit (-1)) 10
               prepared_tracker in
  match lookup_attr (attrs (F:=float) prepared_tracker) "current_compliance" with
  | Some cc =>
      exists more,
        trace (snd run)
          = trace prepared_tracker ++ nplc_calls (lit (-1)) ++
            [ SetupDC true (provisional cc) (PFloat (fmul (lit 0.7) (lit 0.6))) "a";
              Write ":arm:source immediate";
              MeasureUntil (initial_soak (lit 30)) None ] ++ more
  | None =>
      fst run = Raise (AttributeError "current_compliance") /\
      lookup_attr (attrs (snd run)) "Vmpp" = Some (PFloat (fmul (lit 0.7) (lit 0.6)))
  end /\
  (0.7 * 0.6 == 0.42)%Q /\
  seeded (F:=float) 0.6%float PNone = PFloat 0.42%float.
Proof.
  split; [reflexivity | split; [reflexivity|]].
  apply (launch_tracker_seeds_Vmpp (F:=float) atan_deg_ref (lit 30) None (lit (-1)) 10
           prepared_tracker (lit 0.6) PNone); reflexivity.
Defined.

Lemma which_max_power_one_more_witness :
  which_max_power (F:=float) buffer3
    = Ok (power (reading 0.42 (-0.036)), lit 0.42, lit (-0.036), 1%nat) /\
  which_max_power (F:=float) (buffer3 ++ [reading 0.43 (-0.036)])
  = if isnan (power (F:=float) (reading 0.42 (-0.036)))
    then Ok (power (reading 0.42 (-0.036)), lit 0.42, lit (-0.036), 1%nat)
    else if negb (fle (power (F:=float) (reading 0.43 (-0.036)))
                      (power (reading 0.42 (-0.036))))
    then Ok (power (reading 0.43 (-0.036)), voltage (reading 0.43 (-0.036)),
             current (reading 0.43 (-0.036)), length (buffer3 (F:=float)))
    else Ok (power (reading 0.42 (-0.036)), lit 0.42, lit (-0.036), 1%nat).
Proof.
  split; [vm_compute; reflexivity|].
  apply (which_max_power_one_more (F:=float) buffer3 (reading 0.43 (-0.036))).
  vm_compute. reflexivity.
Defined.

Lemma walk_on_reaching_zero_witness :
  (dV (F:=Q) near_zero < 0 /\ - dV (F:=Q) near_zero <= 0.6 /\
   0 <= v_set (F:=Q) near_zero <= 0.6 /\
   - dAngleMax <= 0 <= dAngleMax /\
   v_set (F:=Q) near_zero + dV (F:=Q) near_zero <= 0 /\
   let w' := walk_on (F:=Q) 0.6 0 near_zero in
   lowEdgeTouched w' = true /\ highEdgeTouched w' = highEdgeTouched (F:=Q) near_zero /\
   dV w' == - dV (F:=Q) near_zero /\ 0 <= v_set w' <= 0.6)%Q.
Proof.
  assert (H1 : (dV (F:=Q) near_zero < 0)%Q) by reflexivity.
  assert (H2 : (- dV (F:=Q) near_zero <= 0.6)%Q) by discriminate.
  assert (H3 : (0 <= v_set (F:=Q) near_zero <= 0.6)%Q) by (split; discriminate).
  assert (H4 : (- dAngleMax <= 0 <= dAngleMax)%Q) by (split; discriminate).
  assert (H5 : (v_set (F:=Q) near_zero + dV (F:=Q) near_zero <= 0)%Q) by discriminate.
  repeat (split; [assumption|]).
  exact (walk_on_reaching_zero 0.6 0 near_zero H1 H2 H3 H4 H5).
Defined.

Lemma launch_tracker_writes_only_witness :
  ("currentCompliance"%string ∉ written_by_launch) /\
  lookup_attr
    (attrs (snd (launch_tracker (F:=float) atan_deg_ref (lit 4) None (lit (-1)) 10
                   prepared_tracker)))
    "currentCompliance"
  = lookup_attr (attrs (F:=float) prepared_tracker) "currentCompliance".
Proof.
  assert (H : "currentCompliance"%string ∉ written_by_launch).
  { unfold written_by_launch. rewrite !not_elem_of_cons.
    repeat (split; [discriminate|]). apply not_elem_of_nil. }
  split; [exact H|].
  exact (launch_tracker_writes_only (F:=float) atan_deg_ref (lit 4) None (lit (-1)) 10
           prepared_tracker "currentCompliance" H).
Defined.

Lemma launch_tracker_commits_witness :
  lookup_attr (attrs (F:=float) prepared_tracker) "Voc" = Some (PFloat (lit 0.6)) /\
  lookup_attr (attrs (F:=float) prepared_tracker) "current_compliance" = Some PNone /\
  lookup_attr (attrs (F:=float) prepared_tracker) "Isc" = Some PNone /\
  last (bursts (F:=float) prepared_tracker (n_burst prepared_tracker))
    = Some (reading 0.42 (-0.036)) /\
  let s' := snd (launch_tracker (F:=float) atan_deg_ref (lit 4) None (lit (-1)) 10
                   prepared_tracker) in
  lookup_attr (attrs s') "current_compliance"
    = Some (PFloat (fabs (fmul (lit (-0.036)) (lit 2)))) /\
  lookup_attr (attrs s') "Isc" = Some (PFloat (fmul (lit (-0.036)) (lit 1.1))) /\
  lookup_attr (attrs s') "t0" = Some (PFloat (ticking 1 0)) /\
  exists setPoint more,
    trace s' = trace prepared_tracker
               ++ soak_calls (lit 4) (lit (-1)) PNone setPoint ++ more.
Proof.
  repeat (split; [reflexivity|]).
  apply (launch_tracker_commits (F:=float) atan_deg_ref (lit 4) None (lit (-1)) 10
           prepared_tracker (lit 0.6) PNone PNone (reading 0.42 (-0.036)));
    reflexivity.
Defined.

Lemma launch_tracker_empty_soak_witness :
  lookup_attr (attrs (F:=float) silent_tracker) "Voc" = Some (PFloat (lit 0.6)) /\
  lookup_attr (attrs (F:=float) silent_tracker) "current_compliance" = Some PNone /\
  last (bursts (F:=float) silent_tracker (n_burst silent_tracker)) = None /\
  let run := launch_tracker (F:=float) atan_deg_ref (lit 30) None (lit (-1)) 10
               silent_tracker in
  fst run = Raise IndexError /\
  (exists setPoint,
     trace (snd run)
     = trace silent_tracker ++ soak_calls (lit 30) (lit (-1)) PNone setPoint) /\
  lookup_attr (attrs (snd run)) "Impp" = lookup_attr (attrs silent_tracker) "Impp" /\
  lookup_attr (attrs (snd run)) "current_compliance" = Some PNone.
Proof.
  repeat (split; [reflexivity|]).
  apply (launch_tracker_empty_soak (F:=float) atan_deg_ref (lit 30) None (lit (-1)) 10
           silent_tracker (lit 0.6) PNone); reflexivity.
Defined.

Lemma launch_tracker_history_witness :
  exists h,
    fst (launch_tracker (F:=float) atan_deg_ref (lit 10) None (lit (-1)) 400
           brisk_tracker) = Ok h /\
    (length (bursts (F:=float) brisk_tracker (n_burst brisk_tracker)) < length h)%nat /\
    ((lookup_attr (attrs (F:=float) brisk_tracker) "Voc" = Some PNone /\ h = []) \/
     (exists s1 pptv s2,
        initial_acquisition (lit 10) (lit (-1)) brisk_tracker
          = (Ok (bursts brisk_tracker (n_burst brisk_tracker)), s1) /\
        really_dumb_tracker atan_deg_ref (lit 10) None 400 s1 = (Ok pptv, s2) /\
        h = bursts brisk_tracker (n_burst brisk_tracker) ++ pptv /\
        bursts brisk_tracker (n_burst brisk_tracker) <> [])).
Proof.
  eexists. split; [vm_compute; reflexivity|].
  split; [vm_compute; lia|].
  eapply (launch_tracker_history (F:=float) atan_deg_ref (lit 10) None (lit (-1)) 400
            brisk_tracker).
  vm_compute. reflexivity.
Defined.

Lemma launch_tracker_leaves_estimates_witness :
  exists h,
    fst (launch_tracker (F:=float) atan_deg_ref (lit 4) None (lit (-1)) 10
           brisk_tracker) = Ok h /\
    lookup_attr (attrs (F:=float) brisk_tracker) "Voc" = Some (PFloat (lit 0.6)) /\
    let s' := snd (launch_tracker (F:=float) atan_deg_ref (lit 4) None (lit (-1)) 10
                     brisk_tracker) in
    forall name,
      In name ["Vmpp"; "Impp"; "Isc"; "current_compliance"; "t0"; "Voc"]%string ->
      exists x, lookup_attr (attrs s') name = Some (PFloat x).
Proof.
  eexists. split; [vm_compute; reflexivity|]. split; [reflexivity|].
  eapply (launch_tracker_leaves_estimates (F:=float) atan_deg_ref (lit 4) None
            (lit (-1)) 10 brisk_tracker).
  - vm_compute. reflexivity.
  - reflexivity.
Defined.

Lemma really_dumb_tracker_expired_witness :
  lookup_attr (attrs (F:=float) late_tracker) "Voc" = Some (PFloat (lit 0.6)) /\
  lookup_attr (attrs (F:=float) late_tracker) "t0" = Some (PFloat (lit 0)) /\
  flt (fsub (clock (F:=float) late_tracker (n_clock late_tracker)) (lit 0)) (lit 30)
    = false /\
  let run := really_dumb_tracker (F:=float) atan_deg_ref (lit 30) None 10 late_tracker in
  fst run = Ok [] /\
  trace (snd run) = trace late_tracker /\
  forall name,
    lookup_attr (attrs (snd run)) name = lookup_attr (attrs late_tracker) name.
Proof.
  assert (H1 : lookup_attr (attrs (F:=float) late_tracker) "Voc"
               = Some (PFloat (lit 0.6))) by reflexivity.
  assert (H2 : lookup_attr (attrs (F:=float) late_tracker) "t0"
               = Some (PFloat (lit 0))) by reflexivity.
  assert (H3 : flt (fsub (clock (F:=float) late_tracker (n_clock late_tracker)) (lit 0))
                 (lit 30) = false) by (vm_compute; reflexivity).
  repeat (split; [assumption|]).
  exact (really_dumb_tracker_expired (F:=float) atan_deg_ref (lit 30) None 10
           late_tracker (lit 0.6) (lit 0) H1 H2 H3).
Defined.

Lemma launch_tracker_initial_soak_witness :
  lookup_attr (attrs (F:=float) prepared_tracker) "Voc" = Some (PFloat (lit 0.6)) /\
  lookup_attr (attrs (F:=float) prepared_tracker) "current_compliance" = Some PNone /\
  let run := launch_tracker (F:=float) atan_deg_ref (lit 4) None (lit (-1)) 10
               prepared_tracker in
  (exists before more,
     trace (snd run)
       = trace prepared_tracker ++ before
         ++ [MeasureUntil (initial_soak (lit 4)) None] ++ more /\
     Forall not_a_burst before) /\
  (fle (F:=float) (lit 4) (lit 10) = true ->
   initial_soak (F:=float) (lit 4) = fmul (lit 4) (lit 0.2)) /\
  (fle (F:=float) (lit 4) (lit 10) = false -> initial_soak (F:=float) (lit 4) = lit 10).
Proof.
  split; [reflexivity | split; [reflexivity|]].
  apply (launch_tracker_initial_soak (F:=float) atan_deg_ref (lit 4) None (lit (-1)) 10
           prepared_tracker (lit 0.6) PNone); reflexivity.
Defined.

